(** * bufout: buffered, prefixed output of child processes

    A shallow embedding of [PrefixingTransform.ts], [MultiBufferedTransform.ts]
    and [spawn.ts], and the properties their specification states about them.

    Conventions.
    - A piece of text is a [string]; the only character the code inspects is
      the line feed.
    - Stream objects are compared by identity in the source ([!==]); they are
      named by [StreamRef] here.
    - The state a closure captures and mutates is passed explicitly. *)

From Stdlib Require Import Ascii String.
From stdpp Require Import base option list strings pretty gmap.

Local Open Scope string_scope.
Local Open Scope list_scope.

(** ** Streams and chunks *)

(** The stream objects a launch deals with. Two references are [===] exactly
    when they are the same constructor applied to the same address. *)
Inductive StreamRef : Set :=
  | child_stdout                (* [child.stdout] *)
  | child_stderr                (* [child.stderr] *)
  | process_stdout              (* [process.stdout] of the host *)
  | process_stderr              (* [process.stderr] of the host *)
  | stream_at (addr : nat).     (* any other stream *)

Global Instance StreamRef_eq_dec : EqDecision StreamRef.
Proof. solve_decision. Defined.

(** A [Buffer] is a sequence of bytes. *)
Abbreviation Buffer := string (only parsing).

(** [chunk.toString("utf8")]. Text is kept as its UTF-8 bytes, so decoding a
    well-formed chunk changes nothing. *)
Definition utf8 (chunk : Buffer) : string := chunk.

(** ** Text helpers *)

Module Text.

(** The line separator, ["\n"]. *)
Definition LF : ascii := Ascii.ascii_of_nat 10.
Definition isLF (c : ascii) : bool := bool_decide (c = LF).

(** [text.split("\n")]: the segments between separators; the result is never
    empty and its last element is what follows the last separator. *)
Fixpoint split (text : string) : list string :=
  match text with
  | EmptyString => [EmptyString]
  | String c rest =>
      if isLF c then EmptyString :: split rest
      else match split rest with
           | seg :: segs => String c seg :: segs
           | [] => [String c EmptyString]
           end
  end.

(** [array.pop()]: the last element ([undefined] on an empty array) and the
    array that is left. *)
Definition pop {A} (l : list A) : option A * list A :=
  (last l, removelast l).

(** Truthiness of a string: every string but the empty one. *)
Definition truthy (s : string) : bool :=
  match s with
  | EmptyString => false
  | String _ _ => true
  end.

(** The one-character string ["\n"]. *)
Definition newline : string := String LF EmptyString.

(** Concatenation of a sequence of pieces. *)
Definition join (pieces : list string) : string :=
  foldr String.append EmptyString pieces.

(** [text.endsWith("\n")]. *)
Fixpoint endsWithLF (text : string) : bool :=
  match text with
  | EmptyString => false
  | String c EmptyString => isLF c
  | String _ rest => endsWithLF rest
  end.

End Text.

(** ** PrefixingTransform.ts *)

Module PrefixingTransform.
Import Text.

(** The closure state of one transform: the [needsPrefix] variable, and the
    chunks handed to [this.push] so far, oldest first. *)
Record PrefixingState := mkPrefixingState { needsPrefix : bool; pushed : list string }.

(** [let needsPrefix = true] at creation. *)
Definition createPrefixingTransform : PrefixingState := mkPrefixingState true [].

Definition push (s : string) (st : PrefixingState) : PrefixingState :=
  mkPrefixingState (needsPrefix st) (pushed st ++ [s]).

Definition setNeedsPrefix (b : bool) (st : PrefixingState) : PrefixingState :=
  mkPrefixingState b (pushed st).

(** [if (needsPrefix) { this.push(prefix); needsPrefix = false; }] *)
Definition pushPrefixIfNeeded (prefix : string) (st : PrefixingState) : PrefixingState :=
  if needsPrefix st then setNeedsPrefix false (push prefix st) else st.

(** The body of [for (const line of lines)]. *)
Definition pushLine (prefix : string) (st : PrefixingState) (line : string) : PrefixingState :=
  setNeedsPrefix true (push (line +:+ newline) (pushPrefixIfNeeded prefix st)).

(** [if (remaining) { ... this.push(remaining); }]; [remaining] is
    [undefined] when there was nothing to pop. *)
Definition pushRemaining (prefix : string) (remaining : option string)
    (st : PrefixingState) : PrefixingState :=
  match remaining with
  | Some remaining =>
      if truthy remaining
      then push remaining (pushPrefixIfNeeded prefix st)
      else st
  | None => st
  end.

Section Transform.
Context {Buffer : Type}.
(** [chunk.toString(encoding)], for the encoding the transform was made
    with. *)
Variable toString : Buffer → string.
Variable prefix : string.

(** The [transform(chunk, _, callback)] method. *)
Definition transform (chunk : Buffer) (st : PrefixingState) : PrefixingState :=
  let text := toString chunk in
  let lines := split text in
  let '(remaining, lines) := pop lines in
  let st := foldl (pushLine prefix) st lines in
  pushRemaining prefix remaining st.

(** The chunks of a stream go through [transform] one after the other. *)
Definition run (chunks : list Buffer) (st : PrefixingState) : PrefixingState :=
  foldl (λ st chunk, transform chunk st) st chunks.
End Transform.

(** All the text that came out of the transform so far. *)
Definition output (st : PrefixingState) : string := join (pushed st).

(** What the specification asks of one whole text: every complete line is
    given the prefix once, and so is a non-empty remainder. *)
Definition prefixLines (prefix text : string) : string :=
  let '(remaining, lines) := pop (split text) in
  join ((λ line, prefix +:+ line +:+ newline) <$> lines)
  +:+ match remaining with
      | Some remaining => if truthy remaining then prefix +:+ remaining else ""
      | None => ""
      end.

(** The same text read one character at a time: a character that starts a
    line is preceded by the prefix. [frame] is what comes out, [cursor] is
    the flag afterwards. *)
Fixpoint frame (prefix : string) (np : bool) (text : string) : string :=
  match text with
  | EmptyString => EmptyString
  | String c rest =>
      (if np then prefix else "") +:+ String c (frame prefix (isLF c) rest)
  end.

Fixpoint cursor (np : bool) (text : string) : bool :=
  match text with
  | EmptyString => np
  | String c rest => cursor (isLF c) rest
  end.

(** The same again on the segments of [split]. *)
Fixpoint frameSegments (prefix : string) (np : bool) (segments : list string)
    : string :=
  match segments with
  | [] => ""
  | [remaining] =>
      if truthy remaining then (if np then prefix else "") +:+ remaining else ""
  | line :: segments =>
      (if np then prefix else "") +:+ line +:+ newline
      +:+ frameSegments prefix true segments
  end.

Fixpoint cursorSegments (np : bool) (segments : list string) : bool :=
  match segments with
  | [] => np
  | [remaining] => if truthy remaining then false else np
  | _ :: segments => cursorSegments true segments
  end.

Definition prefixIf (np : bool) (prefix : string) : string :=
  if np then prefix else "".

(** The loop and the remainder, on the segments of a chunk. *)
Definition segments (prefix : string) (segs : list string) (st : PrefixingState) : PrefixingState :=
  let '(remaining, lines) := pop segs in
  pushRemaining prefix remaining (foldl (pushLine prefix) st lines).

(** Whether a text holds a line feed. *)
Fixpoint hasLF (text : string) : bool :=
  match text with
  | EmptyString => false
  | String c rest => isLF c || hasLF rest
  end.

(** ["\n".repeat(n)] *)
Fixpoint lineFeeds (n : nat) : string :=
  match n with
  | 0 => EmptyString
  | S n => String LF (lineFeeds n)
  end.

End PrefixingTransform.

(** ** MultiBufferedTransform.ts *)

Module MultiBufferedTransform.

(** One of the [Transform] streams of [outputs], as far as this module
    drives it: whether [destroy()] was called on it, and the chunks its
    readable side accepted from [push], oldest first. A stream of
    [node:stream] that was destroyed takes no further [write] and drops
    what is pushed to it; a chunk pushed to an open stream goes on to
    whatever the stream is piped into. *)
Record Transform := mkTransform { destroyed : bool; readable : list Buffer }.

(** The closure state of [createMultiBufferedTransform]. A transform is
    named by its position in [outputs]. [pushes] is the history of the
    chunks the outputs accepted, across all of them, oldest first. *)
Record State := mkState {
  buffer : list (Buffer * nat);
  inputPerOutput : gmap nat StreamRef;
  outputs : list Transform;
  pushes : list (nat * Buffer)
}.

Definition setBuffer (b : list (Buffer * nat)) (st : State) : State :=
  mkState b (inputPerOutput st) (outputs st) (pushes st).

(** [createMultiBufferedTransform(inputs, { end })]: one fresh transform per
    input, registered in [inputPerOutput]. The [end] option is only handed
    to [pipe]. *)
Definition createMultiBufferedTransform (inputs : list StreamRef) : State :=
  mkState [] (map_seq 0 inputs) ((λ _, mkTransform false []) <$> inputs) [].

(** The [write(chunk, _, callback)] method of transform number [transform],
    called by the stream when a chunk of its input arrives: it appends
    [[chunk, this]] to the buffer. There is no transform outside [outputs]. *)
Definition write (transform : nat) (chunk : Buffer) (st : State) : State :=
  match outputs st !! transform with
  | Some tr =>
      if destroyed tr then st
      else setBuffer (buffer st ++ [(chunk, transform)]) st
  | None => st
  end.

(** [transform.push(chunk)]. *)
Definition transformPush (transform : nat) (chunk : Buffer) (st : State) : State :=
  match outputs st !! transform with
  | Some tr =>
      if destroyed tr then st
      else mkState (buffer st) (inputPerOutput st)
             (<[transform := mkTransform false (readable tr ++ [chunk])]> (outputs st))
             (pushes st ++ [(transform, chunk)])
  | None => st
  end.

(** The body of the loop of [flush]. *)
Definition flushEntry (stream : option StreamRef) (st : State)
    (entry : Buffer * nat) : State :=
  let '(chunk, transform) := entry in
  let skip :=
    match stream with
    | Some only => bool_decide (inputPerOutput st !! transform ≠ Some only)
    | None => false
    end in
  if skip then st else transformPush transform chunk st.

(** [flush(stream)]: [buffer.splice(0, buffer.length)] empties the buffer
    and hands its former content to the loop. *)
Definition flush (stream : option StreamRef) (st : State) : State :=
  let spliced := buffer st in
  foldl (flushEntry stream) (setBuffer [] st) spliced.

(** [clear()] *)
Definition clear (st : State) : State := setBuffer [] st.

(** [destroy()]: [r.destroy()] for every output. *)
Definition destroy (st : State) : State :=
  mkState (buffer st) (inputPerOutput st)
    ((λ r, mkTransform true (readable r)) <$> outputs st) (pushes st).

(** Chunks arriving one after the other, each on its own channel. *)
Definition arrive (arrivals : list (nat * Buffer)) (st : State) : State :=
  foldl (λ st a, write a.1 a.2 st) st arrivals.

(** What the output of channel [i] received. *)
Definition received (i : nat) (st : State) : list Buffer :=
  from_option readable [] (outputs st !! i).

(** The chunks of channel [i] in a sequence of tagged chunks. *)
Definition ofChannel (i : nat) (l : list (nat * Buffer)) : list Buffer :=
  snd <$> filter (λ a, a.1 = i) l.

(** Every output is still open. *)
Definition allOpen (st : State) : Prop :=
  Forall (λ r, destroyed r = false) (outputs st).

Definition allDestroyed (st : State) : Prop :=
  Forall (λ r, destroyed r = true) (outputs st).

(** The entries of the buffer, read as (channel, chunk) pairs. *)
Definition asArrivals (entries : list (Buffer * nat)) : list (nat * Buffer) :=
  (λ e, (e.2, e.1)) <$> entries.

(** An entry that the loop of [flush] does not skip. *)
Definition kept (stream : option StreamRef) (m : gmap nat StreamRef)
    (entry : Buffer * nat) : Prop :=
  match stream with
  | Some only => m !! entry.2 = Some only
  | None => True
  end.

Global Instance kept_dec stream m entry : Decision (kept stream m entry).
Proof. destruct stream; unfold kept; apply _. Defined.

(** What can happen to the module, one thing at a time. *)
Inductive Call :=
  | Write (transform : nat) (chunk : Buffer)
  | Flush (stream : option StreamRef)
  | Clear
  | Destroy.

Definition call (st : State) (c : Call) : State :=
  match c with
  | Write transform chunk => write transform chunk st
  | Flush stream => flush stream st
  | Clear => clear st
  | Destroy => destroy st
  end.

Definition calls (st : State) (cs : list Call) : State := foldl call st cs.

Definition isDestroy (c : Call) : bool :=
  match c with Destroy => true | _ => false end.

(** What the loop does to a state whose outputs are all open. *)
Record Flushed (stream : option StreamRef) (entries : list (Buffer * nat))
    (st st' : State) : Prop := {
  flushed_buffer : buffer st' = buffer st;
  flushed_inputs : inputPerOutput st' = inputPerOutput st;
  flushed_length : length (outputs st') = length (outputs st);
  flushed_open : allOpen st';
  flushed_pushes :
    pushes st'
    = pushes st ++ asArrivals (filter (kept stream (inputPerOutput st)) entries);
  flushed_received : ∀ i,
    received i st'
    = received i st
      ++ ofChannel i (asArrivals (filter (kept stream (inputPerOutput st)) entries))
}.

(** What holds of the states reached from the creation while no output was
    destroyed. *)
Record Reached (inputs : list StreamRef) (st : State) : Prop := {
  reached_inputs : inputPerOutput st = map_seq 0 inputs;
  reached_length : length (outputs st) = length inputs;
  reached_open : allOpen st;
  reached_valid : Forall (λ e, e.2 < length inputs) (buffer st);
  reached_received : ∀ i, received i st = ofChannel i (pushes st)
}.

(** The chunks a sequence of calls writes, with their channels, in order. *)
Definition writesOf (cs : list Call) : list (nat * Buffer) :=
  omap (λ c, match c with
             | Write transform chunk => Some (transform, chunk)
             | _ => None
             end) cs.

End MultiBufferedTransform.

(** ** spawn.ts *)

Module Spawn.
Module MBT := MultiBufferedTransform.
Module PT := PrefixingTransform.

Inductive OutputMode : Set := inherit | buffered.

(** ["stdout" | "stderr" | "both"] *)
Inductive StreamName : Set := stdout | stderr | both.

(** The two output channels of the child, and their place in the list
    [[child.stdout, child.stderr]]. *)
Inductive Channel : Set := Out | Err.
Definition slot (ch : Channel) : nat :=
  match ch with Out => 0 | Err => 1 end.

(** [new Error(message)] *)
Inductive Error : Set := mkError (message : string).

(** The output side of one launch: what [child.stdout] and [child.stderr]
    emitted so far, and the multi-buffered transform when there is one. *)
Record Stdio := mkStdio {
  childOutput : list (nat * Buffer);
  transform : option MBT.State
}.

(** A statement that may throw: the error or the normal completion, and the
    state it leaves. *)
Definition Effect : Type := Stdio → (Error + unit) * Stdio.

(** [(stream?: "stdout" | "stderr" | "both") => void] *)
Definition Flush : Type := option StreamName → Effect.

Definition determineStream (stream : StreamName) : option StreamRef :=
  match stream with
  | stdout => Some process_stdout
  | stderr => Some process_stdout
  | both => None
  end.

(** [transformStdio(child, mode)]: the streams to pipe from, and the flush
    function. The child is spawned with [stdio: "pipe"], so the three
    assertions hold. *)
Definition transformStdio (mode : OutputMode) : Stdio * Flush :=
  match mode with
  | inherit =>
      (mkStdio [] None,
       λ _ io,
         (inl (mkError "Switch to 'buffered' output mode to flush buffers"),
          io))
  | buffered =>
      let created := MBT.createMultiBufferedTransform [child_stdout; child_stderr] in
      (mkStdio [] (Some created),
       λ stream io,
         let stream := default both stream in
         (inr (),
          mkStdio (childOutput io)
            ((λ t, MBT.destroy (MBT.flush (determineStream stream) t))
               <$> transform io)))
  end.

(** The child writes a chunk to one of its output channels. *)
Definition childData (ch : Channel) (chunk : Buffer) (io : Stdio) : Stdio :=
  mkStdio (childOutput io ++ [(slot ch, chunk)])
          (MBT.write (slot ch) chunk <$> transform io).

(** What the stream that [spawn] pipes from emitted on a channel:
    the child's own stream, or the output of the transform. *)
Definition source (ch : Channel) (io : Stdio) : list Buffer :=
  match transform io with
  | None => MBT.ofChannel (slot ch) (childOutput io)
  | Some t => MBT.received (slot ch) t
  end.

(** [readable.pipe(createPrefixingTransform(outputPrefix)).pipe(sink)], or
    [readable.pipe(sink)]: what reaches the sink. *)
Definition piped (outputPrefix : option string) (chunks : list Buffer)
    : list Buffer :=
  match outputPrefix with
  | Some prefix => PT.pushed (PT.run utf8 prefix chunks PT.createPrefixingTransform)
  | None => chunks
  end.

Definition sink (outputPrefix : option string) (ch : Channel) (io : Stdio)
    : list Buffer :=
  piped outputPrefix (source ch io).

(** *** SpawnFailure *)

Record SpawnFailure := mkSpawnFailure {
  message : string;
  command : string;
  args : list string;
  code : option Z;
  signal : option string;
  flush : Flush
}.

(** The constructor; [super(...)] sets the message. *)
Definition newSpawnFailure (command : string) (args : list string)
    (code : option Z) (signal : option string) (flush : Flush) : SpawnFailure :=
  mkSpawnFailure
    ("Running '" +:+ command +:+ "' failed"
     +:+ match code with
         | Some code => " (code = " +:+ pretty code +:+ ")"
         | None => ""
         end
     +:+ match signal with
         | Some signal => " (signal = " +:+ signal +:+ ")"
         | None => ""
         end)
    command args code signal flush.

(** [flushOutput(stream = "both")] *)
Definition flushOutput (e : SpawnFailure) (stream : option StreamName) : Effect :=
  flush e (Some (default both stream)).

(** *** spawn *)

Inductive Hook : Set := killChild | interruptChild.

Global Instance Hook_eq_dec : EqDecision Hook.
Proof. solve_decision. Defined.

(** How the promise was settled. *)
Inductive Settled :=
  | resolved
  | rejected (e : SpawnFailure)
  | rejectedWith (cause : Error).

Record SpawnOptions := mkOptions {
  outputMode : option OutputMode;
  outputPrefix : option string
}.

(** Everything one call of [spawn] sets up. [kills] lists the calls of
    [child.kill] made by the hooks, with the signal each one sent. *)
Record Coordinator := mkCoordinator {
  processExit : list Hook;       (* listeners of [process] for "exit" *)
  processSIGINT : list Hook;     (* listeners of [process] for "SIGINT" *)
  childExit : bool;              (* [child.once("exit", ...)] still waits *)
  childError : bool;             (* [child.once("error", ...)] still waits *)
  kills : list (Hook * string);
  stdio : Stdio;
  flushStdio : Flush;
  promise : option Settled
}.

(** [emitter.once(event, listener)] *)
Definition once (listener : Hook) (listeners : list Hook) : list Hook :=
  listeners ++ [listener].

(** [emitter.off(event, listener)] removes the instance added last. *)
Fixpoint offFirst (listener : Hook) (listeners : list Hook) : list Hook :=
  match listeners with
  | [] => []
  | l :: ls => if decide (l = listener) then ls else l :: offFirst listener ls
  end.
Definition off (listener : Hook) (listeners : list Hook) : list Hook :=
  reverse (offFirst listener (reverse listeners)).

(** [child.kill(signal)]; the signal defaults to SIGTERM. *)
Definition kill (by_ : Hook) (signal : option string) (c : Coordinator)
    : Coordinator :=
  mkCoordinator (processExit c) (processSIGINT c) (childExit c) (childError c)
    (kills c ++ [(by_, default "SIGTERM" signal)])
    (stdio c) (flushStdio c) (promise c).

(** [killChild = () => child.kill()] and
    [interruptChild = () => child.kill("SIGINT")]. *)
Definition callHook (h : Hook) (c : Coordinator) : Coordinator :=
  match h with
  | killChild => kill killChild None c
  | interruptChild => kill interruptChild (Some "SIGINT") c
  end.

(** [resolve] and [reject] only act on a pending promise. *)
Definition settle (s : Settled) (c : Coordinator) : Coordinator :=
  match promise c with
  | None =>
      mkCoordinator (processExit c) (processSIGINT c) (childExit c)
        (childError c) (kills c) (stdio c) (flushStdio c) (Some s)
  | Some _ => c
  end.

(** [spawn(command, args, options)] up to the creation of the promise: the
    two hooks are registered with [process.once], the streams are set up by
    [transformStdio], and the listeners of the child wait. [command] and
    [args] are only used when the promise is rejected; [step] takes them. *)
Definition spawn (options : SpawnOptions) : Coordinator :=
  let '(io, flushOutput) := transformStdio (default inherit (outputMode options)) in
  mkCoordinator (once killChild []) (once interruptChild [])
    true true [] io flushOutput None.

(** What the listener of the child's "exit" settles the promise with. *)
Definition outcome (command : string) (args : list string) (flushOutput : Flush)
    (code : option Z) (signal : option string) : Settled :=
  if bool_decide (code = Some 0%Z) && bool_decide (signal = None)
  then resolved
  else rejected (newSpawnFailure command args code signal flushOutput).

Inductive Event :=
  | HostExit                                    (* [process] emits "exit" *)
  | HostSIGINT                                  (* [process] emits "SIGINT" *)
  | ChildExit (code : option Z) (signal : option string)
  | ChildError (cause : Error)
  | ChildData (ch : Channel) (chunk : Buffer).

Section Launch.
Variable command : string.
Variable args : list string.

(** One event. A listener added with [once] is removed before it is called.
    The listener of the child's "exit" removes the two hooks with
    [process.off] and settles the promise; the one of "error" rejects it. *)
Definition step (c : Coordinator) (ev : Event) : Coordinator :=
  match ev with
  | HostExit =>
      foldl (λ c h, callHook h c)
        (mkCoordinator [] (processSIGINT c) (childExit c) (childError c)
           (kills c) (stdio c) (flushStdio c) (promise c))
        (processExit c)
  | HostSIGINT =>
      foldl (λ c h, callHook h c)
        (mkCoordinator (processExit c) [] (childExit c) (childError c)
           (kills c) (stdio c) (flushStdio c) (promise c))
        (processSIGINT c)
  | ChildExit code signal =>
      if childExit c then
        settle (outcome command args (flushStdio c) code signal)
          (mkCoordinator (off killChild (processExit c))
             (off interruptChild (processSIGINT c))
             false (childError c) (kills c) (stdio c) (flushStdio c)
             (promise c))
      else c
  | ChildError cause =>
      if childError c then
        settle (rejectedWith cause)
          (mkCoordinator (processExit c) (processSIGINT c) (childExit c)
             false (kills c) (stdio c) (flushStdio c) (promise c))
      else c
  | ChildData ch chunk =>
      mkCoordinator (processExit c) (processSIGINT c) (childExit c)
        (childError c) (kills c) (childData ch chunk (stdio c))
        (flushStdio c) (promise c)
  end.

Definition steps (c : Coordinator) (evs : list Event) : Coordinator :=
  foldl step c evs.
End Launch.

(** The calls of [child.kill] one hook made. *)
Definition killsBy (h : Hook) (c : Coordinator) : list string :=
  snd <$> filter (λ k, k.1 = h) (kills c).

Definition isChildExit (ev : Event) : bool :=
  match ev with ChildExit _ _ => true | _ => false end.
Definition isHostExit (ev : Event) : bool :=
  match ev with HostExit => true | _ => false end.
Definition isHostSIGINT (ev : Event) : bool :=
  match ev with HostSIGINT => true | _ => false end.

(** The [SpawnFailure] the promise was rejected with, if it was. *)
Definition failure (c : Coordinator) : option SpawnFailure :=
  match promise c with
  | Some (rejected e) => Some e
  | _ => None
  end.

(** More output of the child, chunk after chunk. *)
Definition childDatas (chunks : list (Channel * Buffer)) (io : Stdio) : Stdio :=
  foldl (λ io d, childData d.1 d.2 io) io chunks.

(** Where the hooks stand before the exit of the child is observed:
    [seenInt] and [seenExit] tell whether the host was interrupted and
    whether it exited. *)
Record Hooked (seenInt seenExit : bool) (c : Coordinator) : Prop := {
  hooked_sigint : processSIGINT c = if seenInt then [] else [interruptChild];
  hooked_exit : processExit c = if seenExit then [] else [killChild];
  hooked_waits : childExit c = true;
  hooked_interrupts : killsBy interruptChild c = if seenInt then ["SIGINT"] else [];
  hooked_kills : killsBy killChild c = if seenExit then ["SIGTERM"] else []
}.

(** The flush function made by [transformStdio] is the one every failure
    of the launch carries. *)
Record Bound (f : Flush) (c : Coordinator) : Prop := {
  bound_flush : flushStdio c = f;
  bound_failure : ∀ e, failure c = Some e → flush e = f
}.

(** A launch in the "buffered" mode before any flush: its transform was
    made from the two streams of the child and has only been written to. *)
Definition Buffering (c : Coordinator) : Prop :=
  ∃ t, transform (stdio c) = Some t
       ∧ MBT.Reached [child_stdout; child_stderr] t.

(** The chunks the child writes in a sequence of events, in order. *)
Definition dataOf (evs : list Event) : list (Channel * Buffer) :=
  omap (λ ev, match ev with
              | ChildData ch chunk => Some (ch, chunk)
              | _ => None
              end) evs.

(** The same chunks with the place of their channel. *)
Definition tagged (chunks : list (Channel * Buffer)) : list (nat * Buffer) :=
  (λ d, (slot d.1, d.2)) <$> chunks.

End Spawn.

(** ** spawn.test.ts: the writable the tests read the output from *)

Module BufferedWriteable.

(** [const buffer: string[] = []] of [createBufferedWriteable]. *)
Definition createBufferedWriteable : list string := [].

(** [write(chunk, _, callback) { buffer.push(chunk.toString()); callback(); }] *)
Definition writeChunk (buffer : list string) (chunk : Buffer) : list string :=
  buffer ++ [utf8 chunk].

(** [drain = () => buffer.splice(0, buffer.length).join("")]: what it
    returns, and the buffer it leaves. *)
Definition drain (buffer : list string) : string * list string :=
  (Text.join buffer, []).

End BufferedWriteable.

(** * Properties *)

(** ** Facts about text *)

Module TextFacts.
Import Text.

Lemma app_nil_l (s : string) : "" +:+ s = s.
Proof. reflexivity. Qed.

Lemma app_cons (c : ascii) (s1 s2 : string) :
  String c s1 +:+ s2 = String c (s1 +:+ s2).
Proof. reflexivity. Qed.

Lemma app_nil_r (s : string) : s +:+ "" = s.
Proof. induction s as [|c s IH]; [done|]. by rewrite app_cons, IH. Qed.

Lemma app_assoc (s1 s2 s3 : string) :
  (s1 +:+ s2) +:+ s3 = s1 +:+ (s2 +:+ s3).
Proof.
  induction s1 as [|c s1 IH]; [done|]. by rewrite !app_cons, IH.
Qed.

Lemma join_cons (s : string) (l : list string) : join (s :: l) = s +:+ join l.
Proof. reflexivity. Qed.

Lemma join_app (l1 l2 : list string) : join (l1 ++ l2) = join l1 +:+ join l2.
Proof.
  induction l1 as [|s l1 IH]; [done|].
  by rewrite <- app_comm_cons, !join_cons, IH, app_assoc.
Qed.

Lemma join_snoc (l : list string) (s : string) : join (l ++ [s]) = join l +:+ s.
Proof. by rewrite join_app, join_cons, app_nil_r. Qed.

Lemma split_nonempty (text : string) : split text ≠ [].
Proof.
  destruct text as [|c rest]; [done|]. cbn [split].
  destruct (isLF c); [done|]. by destruct (split rest).
Qed.

Lemma isLF_true (c : ascii) : isLF c = true → c = LF.
Proof. unfold isLF. by intros ?%bool_decide_eq_true. Qed.

Lemma endsWithLF_cons (c : ascii) (rest : string) :
  endsWithLF (String c rest) = if truthy rest then endsWithLF rest else isLF c.
Proof. by destruct rest. Qed.

End TextFacts.

(** ** PrefixingTransform *)

Module PrefixingTransformSpec.
Import Text TextFacts PrefixingTransform.

Lemma frameSegments_one (prefix : string) (np : bool) (remaining : string) :
  frameSegments prefix np [remaining]
  = if truthy remaining then prefixIf np prefix +:+ remaining else "".
Proof. reflexivity. Qed.

Lemma frameSegments_more (prefix : string) (np : bool) (line seg : string)
    (segs : list string) :
  frameSegments prefix np (line :: seg :: segs)
  = prefixIf np prefix +:+ line +:+ newline
    +:+ frameSegments prefix true (seg :: segs).
Proof. reflexivity. Qed.

Lemma output_push (s : string) (st : PrefixingState) :
  output (push s st) = output st +:+ s.
Proof. unfold output, push. cbn [pushed]. apply join_snoc. Qed.

Lemma output_pushPrefixIfNeeded (prefix : string) (st : PrefixingState) :
  output (pushPrefixIfNeeded prefix st)
  = output st +:+ prefixIf (needsPrefix st) prefix.
Proof.
  unfold pushPrefixIfNeeded, prefixIf. destruct (needsPrefix st).
  - apply output_push.
  - by rewrite app_nil_r.
Qed.

Lemma needsPrefix_pushPrefixIfNeeded (prefix : string) (st : PrefixingState) :
  needsPrefix (pushPrefixIfNeeded prefix st) = false.
Proof. unfold pushPrefixIfNeeded. by destruct (needsPrefix st) eqn:E. Qed.

Lemma output_pushLine (prefix : string) (st : PrefixingState) (line : string) :
  output (pushLine prefix st line)
  = output st +:+ prefixIf (needsPrefix st) prefix +:+ line +:+ newline.
Proof.
  unfold pushLine.
  change (output (setNeedsPrefix true ?x)) with (output x).
  by rewrite output_push, output_pushPrefixIfNeeded, app_assoc.
Qed.

Lemma segments_cons (prefix line : string) (seg : string) (segs : list string)
    (st : PrefixingState) :
  segments prefix (line :: seg :: segs) st
  = segments prefix (seg :: segs) (pushLine prefix st line).
Proof. reflexivity. Qed.

Lemma output_segments (prefix : string) (segs : list string) (st : PrefixingState) :
  output (segments prefix segs st)
  = output st +:+ frameSegments prefix (needsPrefix st) segs.
Proof.
  revert st. induction segs as [|seg segs IH]; intros st.
  { cbn. by rewrite app_nil_r. }
  destruct segs as [|seg' segs].
  - rewrite frameSegments_one. unfold segments.
    cbn [pop last removelast foldl pushRemaining].
    destruct (truthy seg).
    + by rewrite output_push, output_pushPrefixIfNeeded, app_assoc.
    + by rewrite app_nil_r.
  - rewrite segments_cons, IH, output_pushLine, frameSegments_more.
    change (needsPrefix (pushLine prefix st seg)) with true.
    by rewrite !app_assoc.
Qed.

Lemma needsPrefix_segments (prefix : string) (segs : list string) (st : PrefixingState) :
  needsPrefix (segments prefix segs st) = cursorSegments (needsPrefix st) segs.
Proof.
  revert st. induction segs as [|seg segs IH]; intros st; [done|].
  destruct segs as [|seg' segs].
  - unfold segments. cbn [pop last removelast foldl pushRemaining cursorSegments].
    destruct (truthy seg); [|done].
    change (needsPrefix (push seg ?x)) with (needsPrefix x).
    apply needsPrefix_pushPrefixIfNeeded.
  - by rewrite segments_cons, IH.
Qed.

Lemma truthy_app (s : string) : (if truthy s then s else "") = s.
Proof. by destruct s. Qed.

Lemma frameSegments_split (prefix : string) (np : bool) (text : string) :
  frameSegments prefix np (split text) = frame prefix np text.
Proof.
  revert np. induction text as [|c rest IH]; intros np; [done|].
  cbn [split frame]. fold (prefixIf np prefix).
  destruct (isLF c) eqn:Hc.
  - apply isLF_true in Hc as ->.
    specialize (IH true). pose proof (split_nonempty rest) as Hne.
    destruct (split rest) as [|seg segs]; [done|].
    by rewrite frameSegments_more, IH, app_nil_l.
  - specialize (IH false). rewrite <- IH.
    destruct (split rest) as [|seg [|seg' segs]].
    + done.
    + rewrite !frameSegments_one. cbn [truthy prefixIf].
      rewrite app_nil_l. by destruct seg.
    + rewrite !frameSegments_more. cbn [prefixIf].
      by rewrite !app_nil_l, !app_cons.
Qed.

Lemma cursorSegments_split (np : bool) (text : string) :
  cursorSegments np (split text) = cursor np text.
Proof.
  revert np. induction text as [|c rest IH]; intros np; [done|].
  cbn [split cursor].
  destruct (isLF c) eqn:Hc.
  - specialize (IH true). pose proof (split_nonempty rest) as Hne.
    by destruct (split rest) as [|seg segs].
  - specialize (IH false).
    destruct (split rest) as [|seg [|seg' segs]]; [by rewrite <- IH| |done].
    rewrite <- IH. cbn. by destruct seg.
Qed.

Lemma frame_app (prefix : string) (np : bool) (s1 s2 : string) :
  frame prefix np (s1 +:+ s2)
  = frame prefix np s1 +:+ frame prefix (cursor np s1) s2.
Proof.
  revert np. induction s1 as [|c s1 IH]; intros np; [done|].
  rewrite app_cons. cbn [frame cursor]. by rewrite IH, app_assoc, app_cons.
Qed.

Lemma cursor_app (np : bool) (s1 s2 : string) :
  cursor np (s1 +:+ s2) = cursor (cursor np s1) s2.
Proof.
  revert np. induction s1 as [|c s1 IH]; intros np; [done|].
  rewrite app_cons. cbn [cursor]. apply IH.
Qed.

Lemma cursor_endsWithLF (np : bool) (text : string) :
  cursor np text = if truthy text then endsWithLF text else np.
Proof.
  revert np. induction text as [|c rest IH]; intros np; [done|].
  cbn [cursor truthy]. rewrite IH, endsWithLF_cons. by destruct (truthy rest).
Qed.

Section Decoded.
Context {Buffer : Type}.
Variable toString : Buffer → string.
Variable prefix : string.

Lemma transform_segments (chunk : Buffer) (st : PrefixingState) :
  transform toString prefix chunk st
  = segments prefix (split (toString chunk)) st.
Proof. reflexivity. Qed.

Lemma output_transform (chunk : Buffer) (st : PrefixingState) :
  output (transform toString prefix chunk st)
  = output st +:+ frame prefix (needsPrefix st) (toString chunk).
Proof. by rewrite transform_segments, output_segments, frameSegments_split. Qed.

Lemma needsPrefix_transform (chunk : Buffer) (st : PrefixingState) :
  needsPrefix (transform toString prefix chunk st)
  = cursor (needsPrefix st) (toString chunk).
Proof.
  by rewrite transform_segments, needsPrefix_segments, cursorSegments_split.
Qed.

Lemma run_cons (chunk : Buffer) (chunks : list Buffer) (st : PrefixingState) :
  run toString prefix (chunk :: chunks) st
  = run toString prefix chunks (transform toString prefix chunk st).
Proof. reflexivity. Qed.

Lemma run_frame (chunks : list Buffer) (st : PrefixingState) :
  output (run toString prefix chunks st)
  = output st +:+ frame prefix (needsPrefix st) (join (toString <$> chunks))
  ∧ needsPrefix (run toString prefix chunks st)
    = cursor (needsPrefix st) (join (toString <$> chunks)).
Proof.
  revert st. induction chunks as [|chunk chunks IH]; intros st.
  { cbn. by rewrite app_nil_r. }
  rewrite run_cons.
  destruct (IH (transform toString prefix chunk st)) as [-> ->].
  rewrite output_transform, needsPrefix_transform.
  rewrite fmap_cons, join_cons, frame_app, cursor_app.
  by rewrite app_assoc.
Qed.
End Decoded.

Lemma prefixLines_frame (prefix text : string) :
  prefixLines prefix text = frame prefix true text.
Proof.
  rewrite <- frameSegments_split. unfold prefixLines.
  pose proof (split_nonempty text) as Hne.
  induction (split text) as [|seg segs IH]; [done|].
  destruct segs as [|seg' segs].
  - cbn. by destruct (truthy seg).
  - specialize (IH ltac:(done)).
    change (pop (seg :: seg' :: segs))
      with (last (seg' :: segs), seg :: removelast (seg' :: segs)).
    change (pop (seg' :: segs))
      with (last (seg' :: segs), removelast (seg' :: segs)) in IH.
    cbn beta iota in *. rewrite fmap_cons, join_cons, !app_assoc, IH.
    by rewrite frameSegments_more.
Qed.

(** *** The cases of [PrefixingTransform.test.ts] *)

Example test_empty_input :
  output (run utf8 "[PREFIX] " [] createPrefixingTransform) = "".
Proof. reflexivity. Qed.

Example test_no_final_newline :
  output (run utf8 "[PREFIX] " ["Line1" +:+ newline +:+ "Line2"]
            createPrefixingTransform)
  = "[PREFIX] Line1" +:+ newline +:+ "[PREFIX] Line2".
Proof. vm_compute. reflexivity. Qed.

Example test_only_newlines :
  output (run utf8 "[PREFIX] " [newline +:+ newline +:+ newline]
            createPrefixingTransform)
  = "[PREFIX] " +:+ newline +:+ "[PREFIX] " +:+ newline +:+ "[PREFIX] " +:+ newline.
Proof. vm_compute. reflexivity. Qed.

Example test_empty_and_partial_lines :
  output (run utf8 "[PREFIX] "
            [newline +:+ "PartialLine";
             newline +:+ "AnotherPartial" +:+ newline +:+ "Line" +:+ newline]
            createPrefixingTransform)
  = "[PREFIX] " +:+ newline +:+ "[PREFIX] PartialLine" +:+ newline
    +:+ "[PREFIX] AnotherPartial" +:+ newline +:+ "[PREFIX] Line" +:+ newline.
Proof. vm_compute. reflexivity. Qed.

(** *** The claims *)

(** C3. Whatever way a text is cut into chunks, the transform puts out the
    same text, and ends with the same cursor, as when the whole text comes
    as one chunk; this holds from any state of the transform. From a fresh
    transform that output is the text with every complete line, and a
    non-empty last segment, given the prefix once: a line that spans
    several chunks gets one prefix. *)
Theorem rechunking_same_output {Buffer : Type} (toString : Buffer → string)
    (prefix : string) (chunks : list Buffer) (whole : Buffer) (st : PrefixingState) :
  toString whole = join (toString <$> chunks) →
  output (run toString prefix chunks st) = output (run toString prefix [whole] st)
  ∧ needsPrefix (run toString prefix chunks st)
    = needsPrefix (run toString prefix [whole] st)
  ∧ output (run toString prefix chunks createPrefixingTransform)
    = prefixLines prefix (toString whole).
Proof.
  intros Hwhole.
  destruct (run_frame toString prefix chunks st) as [Ho Hn].
  destruct (run_frame toString prefix [whole] st) as [Ho' Hn'].
  destruct (run_frame toString prefix chunks createPrefixingTransform) as [Hc _].
  cbn [fmap list_fmap] in Ho', Hn'. rewrite join_cons in Ho', Hn'.
  change (join []) with "" in Ho', Hn'. rewrite app_nil_r in Ho', Hn'.
  rewrite Ho, Hn, Ho', Hn', Hc, prefixLines_frame, Hwhole. done.
Qed.

Lemma rechunking_same_output_witness :
  utf8 ("Line1" +:+ newline +:+ "PartialLine" +:+ newline)
  = join (utf8 <$> ["Line1" +:+ newline +:+ "Partia"; "lLine" +:+ newline])
  ∧ output (run utf8 "[P] "
              ["Line1" +:+ newline +:+ "Partia"; "lLine" +:+ newline] createPrefixingTransform)
    = prefixLines "[P] " (utf8 ("Line1" +:+ newline +:+ "PartialLine" +:+ newline)).
Proof.
  split; [reflexivity|].
  apply (rechunking_same_output utf8 "[P] "
           ["Line1" +:+ newline +:+ "Partia"; "lLine" +:+ newline]
           ("Line1" +:+ newline +:+ "PartialLine" +:+ newline) createPrefixingTransform).
  reflexivity.
Defined.

(** C6. With the prefix ["[P] "], the chunk ["Line1\nLine2\nLine3\n"] comes
    out as ["[P] Line1\n[P] Line2\n[P] Line3\n"], and the two chunks
    ["Line1\nPartia"], ["lLine\nLine2\n"] come out as
    ["[P] Line1\n[P] PartialLine\n[P] Line2\n"]. *)
Theorem scenario_outputs :
  output (run utf8 "[P] "
            ["Line1" +:+ newline +:+ "Line2" +:+ newline +:+ "Line3" +:+ newline]
            createPrefixingTransform)
  = "[P] Line1" +:+ newline +:+ "[P] Line2" +:+ newline
    +:+ "[P] Line3" +:+ newline
  ∧ output (run utf8 "[P] "
              ["Line1" +:+ newline +:+ "Partia";
               "lLine" +:+ newline +:+ "Line2" +:+ newline]
              createPrefixingTransform)
    = "[P] Line1" +:+ newline +:+ "[P] PartialLine" +:+ newline
      +:+ "[P] Line2" +:+ newline.
Proof. split; vm_compute; reflexivity. Qed.

(** C10. A chunk that decodes to the empty string leaves the transform as
    it was: nothing is pushed and [needsPrefix] keeps its value. After any
    other chunk, [needsPrefix] is true exactly when the decoded text ends
    with the line feed. *)
Theorem cursor_after_transform {Buffer : Type} (toString : Buffer → string)
    (prefix : string) (chunk : Buffer) (st : PrefixingState) :
  match toString chunk with
  | EmptyString => transform toString prefix chunk st = st
  | String _ _ =>
      needsPrefix (transform toString prefix chunk st)
      = endsWithLF (toString chunk)
  end.
Proof.
  destruct (toString chunk) as [|c rest] eqn:Htext.
  - unfold transform. rewrite Htext. reflexivity.
  - rewrite needsPrefix_transform, cursor_endsWithLF, Htext. reflexivity.
Qed.

End PrefixingTransformSpec.

(** ** MultiBufferedTransform *)

Module MultiBufferedTransformSpec.
Import MultiBufferedTransform.

(** *** Channels of a sequence of arrivals *)

Lemma ofChannel_app (i : nat) (l1 l2 : list (nat * Buffer)) :
  ofChannel i (l1 ++ l2) = ofChannel i l1 ++ ofChannel i l2.
Proof. unfold ofChannel. by rewrite filter_app, fmap_app. Qed.

Lemma ofChannel_one (i t : nat) (chunk : Buffer) :
  ofChannel i [(t, chunk)] = if decide (t = i) then [chunk] else [].
Proof.
  unfold ofChannel. rewrite filter_cons, filter_nil. cbn [fst].
  by destruct (decide (t = i)).
Qed.

Lemma asArrivals_app (l1 l2 : list (Buffer * nat)) :
  asArrivals (l1 ++ l2) = asArrivals l1 ++ asArrivals l2.
Proof. apply fmap_app. Qed.

(** *** [transform.push] on an open and on a destroyed output *)

Lemma push_open (t : nat) (chunk : Buffer) (st : State) :
  allOpen st → t < length (outputs st) →
  ∃ tr, outputs st !! t = Some tr
    ∧ transformPush t chunk st
      = mkState (buffer st) (inputPerOutput st)
          (<[t := mkTransform false (readable tr ++ [chunk])]> (outputs st))
          (pushes st ++ [(t, chunk)]).
Proof.
  intros Hopen Hlt. apply lookup_lt_is_Some in Hlt as [tr Htr].
  exists tr. split; [done|]. unfold transformPush. rewrite Htr.
  unfold allOpen in Hopen. rewrite Forall_lookup in Hopen.
  by rewrite (Hopen _ _ Htr).
Qed.

Lemma push_destroyed (t : nat) (chunk : Buffer) (st : State) :
  allDestroyed st → transformPush t chunk st = st.
Proof.
  intros Hd. unfold transformPush. destruct (outputs st !! t) as [tr|] eqn:Htr; [|done].
  unfold allDestroyed in Hd. rewrite Forall_lookup in Hd.
  by rewrite (Hd _ _ Htr).
Qed.

Lemma allOpen_insert (st : State) (t : nat) (l : list Buffer) :
  allOpen st → Forall (λ r, destroyed r = false) (<[t := mkTransform false l]> (outputs st)).
Proof. intros Hopen. by apply Forall_insert. Qed.

Lemma received_push (i t : nat) (chunk : Buffer) (st : State) :
  allOpen st → t < length (outputs st) →
  received i (transformPush t chunk st)
  = received i st ++ if decide (t = i) then [chunk] else [].
Proof.
  intros Hopen Hlt.
  destruct (push_open t chunk st Hopen Hlt) as (tr & Htr & ->).
  unfold received. cbn [outputs].
  destruct (decide (t = i)) as [->|Hne].
  - by rewrite list_lookup_insert_eq, Htr.
  - rewrite list_lookup_insert_ne by done. by rewrite app_nil_r.
Qed.

(** *** The loop of [flush] *)

Lemma flushEntry_kept (stream : option StreamRef) (st : State)
    (entry : Buffer * nat) :
  kept stream (inputPerOutput st) entry →
  flushEntry stream st entry = transformPush entry.2 entry.1 st.
Proof.
  destruct entry as [chunk t]. unfold kept, flushEntry. cbn [fst snd].
  destruct stream as [only|]; [|done].
  intros Hk. by rewrite bool_decide_eq_false_2 by (intros Hne; by apply Hne).
Qed.

Lemma flushEntry_skipped (stream : option StreamRef) (st : State)
    (entry : Buffer * nat) :
  ¬ kept stream (inputPerOutput st) entry → flushEntry stream st entry = st.
Proof.
  destruct entry as [chunk t]. unfold kept, flushEntry. cbn [fst snd].
  destruct stream as [only|]; [|done].
  intros Hk. by rewrite bool_decide_eq_true_2.
Qed.

Lemma flush_loop (stream : option StreamRef) (entries : list (Buffer * nat))
    (st : State) :
  allOpen st →
  Forall (λ e, e.2 < length (outputs st)) entries →
  Flushed stream entries st (foldl (flushEntry stream) st entries).
Proof.
  revert st. induction entries as [|entry entries IH]; intros st Hopen Hvalid.
  { split; try done; intros; cbn; by rewrite app_nil_r. }
  apply Forall_cons in Hvalid as [Hlt Hvalid]. cbn [foldl].
  destruct (decide (kept stream (inputPerOutput st) entry)) as [Hk|Hk].
  - rewrite (flushEntry_kept _ _ _ Hk).
    destruct (push_open entry.2 entry.1 st Hopen Hlt) as (tr & Htr & Hpush).
    assert (allOpen (transformPush entry.2 entry.1 st)) as Hopen'.
    { rewrite Hpush. by apply allOpen_insert. }
    assert (length (outputs (transformPush entry.2 entry.1 st)) = length (outputs st))
      as Hlen.
    { rewrite Hpush. cbn [outputs]. apply length_insert. }
    assert (inputPerOutput (transformPush entry.2 entry.1 st) = inputPerOutput st)
      as Hin by by rewrite Hpush.
    destruct (IH (transformPush entry.2 entry.1 st) Hopen') as [Hb Hi Hl Ho Hp Hr].
    { by rewrite Hlen. }
    rewrite Hin in *.
    split.
    + rewrite Hb. by rewrite Hpush.
    + by rewrite Hi.
    + by rewrite Hl.
    + done.
    + rewrite filter_cons_True by done.
      rewrite Hp, Hpush. cbn [pushes asArrivals fmap list_fmap].
      by rewrite <- app_assoc.
    + intros i. rewrite filter_cons_True by done.
      rewrite Hr, (received_push i _ _ st Hopen Hlt).
      change (asArrivals (entry :: ?l)) with ([(entry.2, entry.1)] ++ asArrivals l).
      by rewrite ofChannel_app, ofChannel_one, <- app_assoc.
  - rewrite (flushEntry_skipped _ _ _ Hk).
    destruct (IH st Hopen Hvalid) as [Hb Hi Hl Ho Hp Hr].
    split; try done; [|intros i]; by rewrite filter_cons_False by done.
Qed.

Lemma flush_loop_destroyed (stream : option StreamRef)
    (entries : list (Buffer * nat)) (st : State) :
  allDestroyed st → foldl (flushEntry stream) st entries = st.
Proof.
  intros Hd. induction entries as [|entry entries IH]; [done|].
  cbn [foldl].
  destruct (decide (kept stream (inputPerOutput st) entry)) as [Hk|Hk].
  - by rewrite (flushEntry_kept _ _ _ Hk), push_destroyed.
  - by rewrite (flushEntry_skipped _ _ _ Hk).
Qed.

Lemma flush_destroyed (stream : option StreamRef) (st : State) :
  allDestroyed st → flush stream st = setBuffer [] st.
Proof. intros Hd. unfold flush. by apply flush_loop_destroyed. Qed.

(** *** After [destroy] *)

Lemma allDestroyed_destroy (st : State) : allDestroyed (destroy st).
Proof.
  unfold allDestroyed, destroy. cbn [outputs].
  apply Forall_fmap, Forall_true. done.
Qed.

Lemma received_destroy (i : nat) (st : State) :
  received i (destroy st) = received i st.
Proof.
  unfold received, destroy. cbn [outputs]. rewrite list_lookup_fmap.
  by destruct (outputs st !! i).
Qed.

Lemma write_destroyed (t : nat) (chunk : Buffer) (st : State) :
  allDestroyed st → write t chunk st = st.
Proof.
  intros Hd. unfold write. destruct (outputs st !! t) as [tr|] eqn:Htr; [|done].
  unfold allDestroyed in Hd. rewrite Forall_lookup in Hd.
  by rewrite (Hd _ _ Htr).
Qed.

(** *** States reached while the outputs are open *)

Lemma reached_create (inputs : list StreamRef) : Reached inputs (createMultiBufferedTransform inputs).
Proof.
  split; cbn; try done.
  - apply length_fmap.
  - unfold allOpen. cbn. apply Forall_fmap, Forall_true. done.
  - intros i. unfold received. cbn. rewrite list_lookup_fmap.
    by destruct (inputs !! i).
Qed.

Lemma write_open (t : nat) (chunk : Buffer) (st : State) :
  allOpen st → t < length (outputs st) →
  write t chunk st = setBuffer (buffer st ++ [(chunk, t)]) st.
Proof.
  intros Hopen Hlt. apply lookup_lt_is_Some in Hlt as [tr Htr].
  unfold write. rewrite Htr.
  unfold allOpen in Hopen. rewrite Forall_lookup in Hopen.
  by rewrite (Hopen _ _ Htr).
Qed.

Lemma write_outside (t : nat) (chunk : Buffer) (st : State) :
  (length (outputs st) ≤ t)%nat → write t chunk st = st.
Proof. intros Hge. unfold write. by rewrite lookup_ge_None_2. Qed.

Lemma reached_write (inputs : list StreamRef) (t : nat) (chunk : Buffer)
    (st : State) :
  Reached inputs st → Reached inputs (write t chunk st).
Proof.
  intros [Hi Hl Ho Hv Hr].
  destruct (decide (t < length (outputs st))) as [Hlt|Hge].
  - rewrite write_open by done. split; try done. cbn.
    apply Forall_app. split; [done|]. apply Forall_singleton. cbn. lia.
  - rewrite write_outside by lia. by split.
Qed.

Lemma reached_flush (inputs : list StreamRef) (stream : option StreamRef)
    (st : State) :
  Reached inputs st → Reached inputs (flush stream st).
Proof.
  intros [Hi Hl Ho Hv Hr]. unfold flush.
  destruct (flush_loop stream (buffer st) (setBuffer [] st)) as [Fb Fi Fl Fo Fp Fr].
  { done. }
  { cbn. by rewrite Hl. }
  split.
  - by rewrite Fi.
  - by rewrite Fl.
  - done.
  - rewrite Fb. cbn. done.
  - intros i. rewrite Fr, Fp, ofChannel_app. cbn [pushes]. f_equal. apply Hr.
Qed.

Lemma reached_clear (inputs : list StreamRef) (st : State) :
  Reached inputs st → Reached inputs (clear st).
Proof. intros [Hi Hl Ho Hv Hr]. by split. Qed.

Lemma reached_calls (inputs : list StreamRef) (cs : list Call) (st : State) :
  Reached inputs st → Forall (λ c, isDestroy c = false) cs →
  Reached inputs (calls st cs).
Proof.
  revert st. induction cs as [|c cs IH]; intros st Hst Hcs; [done|].
  apply Forall_cons in Hcs as [Hc Hcs]. cbn [calls foldl]. apply IH; [|done].
  destruct c; cbn [call]; try done;
    auto using reached_write, reached_flush, reached_clear.
Qed.

(** *** Arrivals *)

Lemma arrive_open (arrivals : list (nat * Buffer)) (st : State) :
  allOpen st → Forall (λ a, a.1 < length (outputs st)) arrivals →
  arrive arrivals st
  = setBuffer (buffer st ++ ((λ a, (a.2, a.1)) <$> arrivals)) st.
Proof.
  revert st. induction arrivals as [|[t chunk] arrivals IH]; intros st Ho Hv.
  { cbn. rewrite app_nil_r. by destruct st. }
  apply Forall_cons in Hv as [Hlt Hv]. cbn [fst] in Hlt.
  change (arrive ((t, chunk) :: arrivals) st)
    with (arrive arrivals (write t chunk st)).
  rewrite write_open by done. rewrite IH by done.
  cbn. by rewrite <- app_assoc.
Qed.

Lemma asArrivals_swap (arrivals : list (nat * Buffer)) :
  asArrivals ((λ a, (a.2, a.1)) <$> arrivals) = arrivals.
Proof.
  unfold asArrivals. rewrite <- list_fmap_compose.
  induction arrivals as [|[t chunk] arrivals IH]; [done|].
  cbn. by rewrite IH.
Qed.

Lemma filter_kept_all (m : gmap nat StreamRef) (entries : list (Buffer * nat)) :
  filter (kept None m) entries = entries.
Proof.
  induction entries as [|e entries IH]; [done|].
  rewrite filter_cons_True by done. by rewrite IH.
Qed.

Lemma filter_kept_channel (inputs : list StreamRef) (X : nat) (input : StreamRef)
    (entries : list (Buffer * nat)) :
  NoDup inputs → inputs !! X = Some input →
  asArrivals (filter (kept (Some input) (map_seq 0 inputs)) entries)
  = filter (λ a, a.1 = X) (asArrivals entries).
Proof.
  intros Hnd HX. induction entries as [|[chunk t] entries IH]; [done|].
  change (asArrivals ((chunk, t) :: entries))
    with ((t, chunk) :: asArrivals entries).
  destruct (decide (t = X)) as [->|Hne].
  - rewrite !filter_cons_True; [by rewrite <- IH|done|].
    unfold kept. cbn. by rewrite lookup_map_seq_0.
  - rewrite !filter_cons_False; [done|done|].
    unfold kept. cbn. rewrite lookup_map_seq_0. intros Ht.
    apply Hne. by eapply NoDup_lookup.
Qed.

(** A flush of everything, after some more chunks arrived. *)
Lemma flush_all (inputs : list StreamRef) (arrivals : list (nat * Buffer))
    (st : State) :
  Reached inputs st → Forall (λ a, a.1 < length inputs) arrivals →
  let st' := flush None (arrive arrivals st) in
  pushes st' = pushes st ++ asArrivals (buffer st) ++ arrivals
  ∧ buffer st' = []
  ∧ ∀ i, received i st'
         = received i st ++ ofChannel i (asArrivals (buffer st) ++ arrivals).
Proof.
  intros [Hi Hl Ho Hv Hr] Harr. cbn zeta.
  rewrite arrive_open by (by rewrite ?Hl). unfold flush. cbn [buffer setBuffer].
  destruct (flush_loop None (buffer st ++ ((λ a, (a.2, a.1)) <$> arrivals))
              (setBuffer [] (setBuffer (buffer st ++ ((λ a, (a.2, a.1)) <$> arrivals)) st)))
    as [Fb Fi Fl Fo Fp Fr].
  { done. }
  { cbn. rewrite Hl. apply Forall_app. split; [done|].
    apply Forall_fmap. eapply Forall_impl; [exact Harr|]. done. }
  rewrite filter_kept_all, asArrivals_app, asArrivals_swap in Fp, Fr.
  split; [exact Fp|]. split; [by rewrite Fb|]. intros i. by rewrite Fr.
Qed.

(** *** The cases of [MultiBufferedTransform.test.ts] *)

Example test_multiple_readables_in_order :
  pushes (calls (createMultiBufferedTransform [stream_at 1; stream_at 2; stream_at 3])
            [Write 0 "hello"; Write 2 "world"; Write 1 "!"; Flush None])
  = [(0, "hello"); (2, "world"); (1, "!")].
Proof. vm_compute. reflexivity. Qed.

Example test_flushes_a_stream_exclusively :
  pushes (calls (createMultiBufferedTransform [stream_at 1; stream_at 2])
            [Write 0 "hello"; Write 1 "world"; Flush (Some (stream_at 1))])
  = [(0, "hello")].
Proof. vm_compute. reflexivity. Qed.

Example test_clear_and_resume :
  pushes (calls (createMultiBufferedTransform [stream_at 1])
            [Write 0 "hello"; Clear; Write 0 "great"; Write 0 "world";
             Flush None; Destroy])
  = [(0, "great"); (0, "world")].
Proof. vm_compute. reflexivity. Qed.

(** *** The claims *)

(** C1. Chunks arrive on the channels of a fresh buffer in any interleaving;
    then [flush()] is called. The outputs accept exactly the chunks that
    arrived, each one on the output of its own channel, in the order of
    arrival across all channels; so every output receives the chunks of
    its channel in their order. Nothing is left in the buffer. *)
Theorem flush_delivers_in_arrival_order (inputs : list StreamRef)
    (arrivals : list (nat * Buffer)) :
  Forall (λ a, a.1 < length inputs) arrivals →
  let st := flush None (arrive arrivals (createMultiBufferedTransform inputs)) in
  pushes st = arrivals
  ∧ buffer st = []
  ∧ ∀ i, received i st = ofChannel i arrivals.
Proof.
  intros Harr.
  destruct (flush_all inputs arrivals (createMultiBufferedTransform inputs) (reached_create inputs) Harr)
    as (Hp & Hb & Hr).
  cbn zeta. split; [exact Hp|]. split; [exact Hb|].
  intros i. rewrite Hr. unfold received. cbn. rewrite list_lookup_fmap.
  by destruct (inputs !! i).
Qed.

Lemma flush_delivers_in_arrival_order_witness :
  Forall (λ a : nat * Buffer, a.1 < length [stream_at 1; stream_at 2])
    [(0, "hello"); (1, "world"); (0, "!")]
  ∧ pushes (flush None (arrive [(0, "hello"); (1, "world"); (0, "!")]
                          (createMultiBufferedTransform [stream_at 1; stream_at 2])))
    = [(0, "hello"); (1, "world"); (0, "!")].
Proof.
  assert (Forall (λ a : nat * Buffer, a.1 < length [stream_at 1; stream_at 2])
            [(0, "hello"); (1, "world"); (0, "!")]) as H.
  { repeat constructor. }
  split; [exact H|].
  apply (flush_delivers_in_arrival_order [stream_at 1; stream_at 2]
           [(0, "hello"); (1, "world"); (0, "!")] H).
Defined.

Lemma ofChannel_filter (i X : nat) (l : list (nat * Buffer)) :
  ofChannel i (filter (λ a, a.1 = X) l)
  = if decide (i = X) then ofChannel X l else [].
Proof.
  unfold ofChannel. induction l as [|[t chunk] l IH].
  { by destruct (decide (i = X)). }
  destruct (decide (t = X)) as [->|Hne].
  - rewrite (filter_cons_True (λ a, a.1 = X)) by done.
    destruct (decide (i = X)) as [->|Hi].
    + rewrite !filter_cons_True by done. cbn. by rewrite <- IH.
    + rewrite filter_cons_False by (cbn; congruence). done.
  - rewrite (filter_cons_False (λ a, a.1 = X)) by done. rewrite IH.
    by destruct (decide (i = X)).
Qed.

(** C5. Take any state the buffer reaches from its creation by arrivals,
    flushes and clears, over distinct input streams, and flush it with the
    input stream of channel [X] as selector. The outputs accept exactly the
    buffered chunks of [X], in their order of arrival, all on the output of
    [X]; no other output receives anything. The chunks of the other
    channels are gone with the rest of the buffer: whatever arrives
    [later], a following [flush()] delivers those later chunks and nothing
    else. *)
Theorem flush_one_channel_drops_the_rest (inputs : list StreamRef)
    (cs : list Call) (X : nat) (input : StreamRef)
    (later : list (nat * Buffer)) :
  NoDup inputs →
  inputs !! X = Some input →
  Forall (λ c, isDestroy c = false) cs →
  Forall (λ a, a.1 < length inputs) later →
  let st := calls (createMultiBufferedTransform inputs) cs in
  let st' := flush (Some input) st in
  pushes st' = pushes st ++ filter (λ a, a.1 = X) (asArrivals (buffer st))
  ∧ received X st' = received X st ++ ofChannel X (asArrivals (buffer st))
  ∧ (∀ j, j ≠ X → received j st' = received j st)
  ∧ buffer st' = []
  ∧ pushes (flush None (arrive later st')) = pushes st' ++ later.
Proof.
  intros Hnd HX Hcs Hlater. cbn zeta.
  pose proof (reached_calls inputs cs _ (reached_create inputs) Hcs) as Hst.
  set (st := calls (createMultiBufferedTransform inputs) cs) in *.
  pose proof (reached_flush inputs (Some input) st Hst) as Hst'.
  destruct Hst as [Hi Hl Ho Hv Hr].
  assert (Flushed (Some input) (buffer st) (setBuffer [] st) (flush (Some input) st))
    as [Fb Fi Fl Fo Fp Fr].
  { apply flush_loop; [done|]. cbn. by rewrite Hl. }
  cbn [inputPerOutput setBuffer pushes] in Fp, Fr.
  rewrite Hi, (filter_kept_channel inputs X input _ Hnd HX) in Fp, Fr.
  pose proof (λ i, ofChannel_filter i X (asArrivals (buffer st))) as Hsel.
  split; [exact Fp|]. split.
  { rewrite Fr, Hsel. by rewrite decide_True. }
  split.
  { intros j Hj. rewrite Fr, Hsel. rewrite decide_False by done.
    apply app_nil_r. }
  split; [by rewrite Fb|].
  destruct (flush_all inputs later _ Hst' Hlater) as (Hp & _ & _).
  rewrite Hp, Fb. done.
Qed.

Lemma flush_one_channel_drops_the_rest_witness :
  NoDup [stream_at 1; stream_at 2]
  ∧ [stream_at 1; stream_at 2] !! 0 = Some (stream_at 1)
  ∧ Forall (λ c, isDestroy c = false) [Write 0 "hello"; Write 1 "world"; Write 0 "!"]
  ∧ Forall (λ a : nat * Buffer, a.1 < length [stream_at 1; stream_at 2])
      [(1, "again")]
  ∧ pushes (flush (Some (stream_at 1))
              (calls (createMultiBufferedTransform [stream_at 1; stream_at 2])
                 [Write 0 "hello"; Write 1 "world"; Write 0 "!"]))
    = [(0, "hello"); (0, "!")].
Proof.
  assert (NoDup [stream_at 1; stream_at 2]) as H1.
  { apply NoDup_cons. split; [|apply NoDup_singleton].
    intros Hin. apply list_elem_of_singleton in Hin. discriminate Hin. }
  assert ([stream_at 1; stream_at 2] !! 0 = Some (stream_at 1)) as H2
    by reflexivity.
  assert (Forall (λ c, isDestroy c = false)
            [Write 0 "hello"; Write 1 "world"; Write 0 "!"]) as H3
    by (repeat constructor).
  assert (Forall (λ a : nat * Buffer, a.1 < length [stream_at 1; stream_at 2])
            [(1, "again")]) as H4
    by (repeat constructor).
  split; [exact H1|]. split; [exact H2|]. split; [exact H3|]. split; [exact H4|].
  exact (proj1 (flush_one_channel_drops_the_rest
                  [stream_at 1; stream_at 2]
                  [Write 0 "hello"; Write 1 "world"; Write 0 "!"]
                  0 (stream_at 1) [(1, "again")] H1 H2 H3 H4)).
Defined.

End MultiBufferedTransformSpec.

(** ** spawn *)

Module SpawnSpec.
Import Text MultiBufferedTransform MultiBufferedTransformSpec Spawn.

(** *** A case of [spawn.test.ts]: nothing is printed until flushed *)

Example test_prints_prefix_when_flushed :
  let c := steps "npx" ["tsx"]
             (spawn (mkOptions (Some buffered) (Some "[prefix] ")))
             [ChildData Out ("starting" +:+ newline);
              ChildData Err ("failed" +:+ newline);
              ChildExit (Some 1%Z) None] in
  sink (Some "[prefix] ") Out (stdio c) = []
  ∧ sink (Some "[prefix] ") Err (stdio c) = []
  ∧ match failure c with
    | Some e =>
        let io := (flushOutput e None (stdio c)).2 in
        Text.join (sink (Some "[prefix] ") Out io) = "[prefix] starting" +:+ newline
        ∧ Text.join (sink (Some "[prefix] ") Err io) = "[prefix] failed" +:+ newline
    | None => False
    end.
Proof. vm_compute. done. Qed.

(** *** Classification of the child's exit *)

(** C4. When the exit of the child is observed with [(code, signal)] and the
    promise is pending, it is resolved if and only if the code is 0 and
    there is no signal. Otherwise it is rejected with a failure that holds
    the command, the arguments, the code, the signal and the flush
    function of this launch, and whose message is
    [Running '<command>' failed], then [ (code = <code>)] if there is a
    code, then [ (signal = <signal>)] if there is a signal. *)
Theorem exit_outcome (cmd : string) (arguments : list string)
    (c : Coordinator) (exitCode : option Z) (sig : option string) :
  promise c = None → childExit c = true →
  let c' := step cmd arguments c (ChildExit exitCode sig) in
  (promise c' = Some resolved ↔ exitCode = Some 0%Z ∧ sig = None)
  ∧ promise c'
    = Some
        (if bool_decide (exitCode = Some 0%Z ∧ sig = None) then resolved
         else rejected
           (mkSpawnFailure
              ("Running '" +:+ cmd +:+ "' failed"
               +:+ from_option (λ n : Z, " (code = " +:+ pretty n +:+ ")") "" exitCode
               +:+ from_option (λ s, " (signal = " +:+ s +:+ ")") "" sig)
              cmd arguments exitCode sig (flushStdio c))).
Proof.
  intros Hpending Hwaits. cbn zeta. cbn [step]. rewrite Hwaits.
  unfold settle. cbn [promise]. rewrite Hpending. cbn [promise].
  unfold outcome.
  destruct (decide (exitCode = Some 0%Z ∧ sig = None)) as [[-> ->]|Hno].
  - by rewrite !bool_decide_eq_true_2.
  - rewrite (bool_decide_eq_false_2 (_ ∧ _)) by done.
    replace (bool_decide (exitCode = Some 0%Z) && bool_decide (sig = None))
      with false.
    + split; [split; [done|by intros ?]|].
      unfold newSpawnFailure. by destruct exitCode, sig.
    + symmetry. apply andb_false_iff.
      destruct (decide (exitCode = Some 0%Z)) as [Hc|Hc].
      * right. apply bool_decide_eq_false_2. intros Hs. by apply Hno.
      * left. by apply bool_decide_eq_false_2.
Qed.

Lemma exit_outcome_witness :
  promise (spawn (mkOptions None None)) = None
  ∧ childExit (spawn (mkOptions None None)) = true
  ∧ message <$> failure (step "npx" ["tsx"] (spawn (mkOptions None None))
                           (ChildExit (Some 123%Z) None))
    = Some "Running 'npx' failed (code = 123)".
Proof.
  split; [reflexivity|]. split; [reflexivity|].
  unfold failure.
  rewrite (proj2 (exit_outcome "npx" ["tsx"] (spawn (mkOptions None None))
                    (Some 123%Z) None eq_refl eq_refl)).
  reflexivity.
Defined.

(** *** The hooks on the host process *)

Lemma settle_fields (s : Settled) (c : Coordinator) :
  processExit (settle s c) = processExit c
  ∧ processSIGINT (settle s c) = processSIGINT c
  ∧ childExit (settle s c) = childExit c
  ∧ kills (settle s c) = kills c
  ∧ stdio (settle s c) = stdio c
  ∧ flushStdio (settle s c) = flushStdio c.
Proof. unfold settle. by destruct (promise c). Qed.

Lemma killsBy_kill (h by_ : Hook) (sig : option string) (c : Coordinator) :
  killsBy h (kill by_ sig c)
  = killsBy h c ++ if decide (by_ = h) then [default "SIGTERM" sig] else [].
Proof.
  unfold killsBy, kill. cbn [kills]. rewrite filter_app, fmap_app. f_equal.
  rewrite filter_cons, filter_nil. cbn [fst]. by destruct (decide (by_ = h)).
Qed.

Lemma hooked_spawn (options : SpawnOptions) : Hooked false false (spawn options).
Proof. unfold spawn. by destruct (transformStdio _). Qed.

Section Launch.
Variable cmd : string.
Variable arguments : list string.

Lemma hooked_step (seenInt seenExit : bool) (c : Coordinator) (ev : Event) :
  Hooked seenInt seenExit c → isChildExit ev = false →
  Hooked (seenInt || isHostSIGINT ev) (seenExit || isHostExit ev)
    (step cmd arguments c ev).
Proof.
  intros [Hi He Hw Hki Hkk] Hev. unfold killsBy in Hki, Hkk.
  destruct ev as [| |exitCode sig|cause|ch chunk]; [| |done| |];
    cbn [isHostSIGINT isHostExit step]; rewrite ?orb_false_r, ?orb_true_r.
  - rewrite He. destruct seenExit; cbn [foldl callHook].
    + by split.
    + split; try done; rewrite killsBy_kill; unfold killsBy; cbn [kills].
      * rewrite Hki, decide_False by done. apply app_nil_r.
      * rewrite Hkk, decide_True by done. done.
  - rewrite Hi. destruct seenInt; cbn [foldl callHook].
    + by split.
    + split; try done; rewrite killsBy_kill; unfold killsBy; cbn [kills].
      * rewrite Hki, decide_True by done. done.
      * rewrite Hkk, decide_False by done. apply app_nil_r.
  - destruct (childError c); [|by split].
    unfold killsBy.
    destruct (settle_fields (rejectedWith cause)
                (mkCoordinator (processExit c) (processSIGINT c) (childExit c)
                   false (kills c) (stdio c) (flushStdio c) (promise c)))
      as (E1 & E2 & E3 & E4 & _).
    split; unfold killsBy; by rewrite ?E1, ?E2, ?E3, ?E4.
  - by split.
Qed.

Lemma hooked_steps (evs : list Event) (seenInt seenExit : bool)
    (c : Coordinator) :
  Hooked seenInt seenExit c → Forall (λ ev, isChildExit ev = false) evs →
  Hooked (seenInt || existsb isHostSIGINT evs) (seenExit || existsb isHostExit evs)
    (steps cmd arguments c evs).
Proof.
  revert seenInt seenExit c.
  induction evs as [|ev evs IH]; intros seenInt seenExit c Hc Hevs.
  { cbn. by rewrite !orb_false_r. }
  apply Forall_cons in Hevs as [Hev Hevs].
  cbn [existsb steps foldl]. rewrite !orb_assoc.
  apply IH; [|done]. by apply hooked_step.
Qed.

(** Once both lists of listeners are empty, no event makes a hook call
    [child.kill]. *)
Lemma unhooked_step (c : Coordinator) (ev : Event) :
  processExit c = [] → processSIGINT c = [] →
  processExit (step cmd arguments c ev) = []
  ∧ processSIGINT (step cmd arguments c ev) = []
  ∧ kills (step cmd arguments c ev) = kills c.
Proof.
  intros He Hi. destruct ev as [| |exitCode sig|cause|ch chunk]; cbn [step].
  - by rewrite He.
  - by rewrite Hi.
  - destruct (childExit c); [|done].
    match goal with |- context [settle ?s ?c'] =>
      destruct (settle_fields s c') as (-> & -> & _ & -> & _) end.
    cbn. by rewrite He, Hi.
  - destruct (childError c); [|done].
    match goal with |- context [settle ?s ?c'] =>
      destruct (settle_fields s c') as (-> & -> & _ & -> & _) end.
    done.
  - done.
Qed.

Lemma unhooked_steps (evs : list Event) (c : Coordinator) :
  processExit c = [] → processSIGINT c = [] →
  kills (steps cmd arguments c evs) = kills c.
Proof.
  revert c. induction evs as [|ev evs IH]; intros c He Hi; [done|].
  cbn [steps foldl].
  destruct (unhooked_step c ev He Hi) as (He' & Hi' & <-).
  by apply IH.
Qed.

(** C7. Take a launch and the events [before] the exit of the child is
    observed. The interrupt hook has called [child.kill("SIGINT")] once
    if the host was interrupted, and not at all otherwise; the exit hook
    has called [child.kill()] once if the host exited, and not at all
    otherwise. When the exit of the child is observed, no listener of
    the launch is left on the host process, and whatever happens [after]
    it, the hooks call [child.kill] no more. *)
Theorem hooks_forward_once_and_stop (options : SpawnOptions)
    (before after : list Event) (exitCode : option Z) (sig : option string) :
  Forall (λ ev, isChildExit ev = false) before →
  let pending := steps cmd arguments (spawn options) before in
  let exited := step cmd arguments pending (ChildExit exitCode sig) in
  let final := steps cmd arguments exited after in
  killsBy interruptChild pending
  = (if existsb isHostSIGINT before then ["SIGINT"] else [])
  ∧ killsBy killChild pending
    = (if existsb isHostExit before then ["SIGTERM"] else [])
  ∧ processExit exited = []
  ∧ processSIGINT exited = []
  ∧ kills final = kills pending.
Proof.
  intros Hbefore. cbn zeta.
  destruct (hooked_steps before false false (spawn options)
              (hooked_spawn options) Hbefore) as [Hi He Hw Hki Hkk].
  cbn [orb] in *.
  set (pending := steps cmd arguments (spawn options) before) in *.
  assert (processExit (step cmd arguments pending (ChildExit exitCode sig)) = []
          ∧ processSIGINT (step cmd arguments pending (ChildExit exitCode sig)) = []
          ∧ kills (step cmd arguments pending (ChildExit exitCode sig))
            = kills pending) as (He' & Hi' & Hk').
  { cbn [step]. rewrite Hw.
    match goal with |- context [settle ?s ?c'] =>
      destruct (settle_fields s c') as (-> & -> & _ & -> & _) end.
    cbn [processExit processSIGINT kills]. rewrite He, Hi.
    by destruct (existsb isHostExit before), (existsb isHostSIGINT before). }
  split; [done|]. split; [done|]. split; [done|]. split; [done|].
  rewrite unhooked_steps by done. done.
Qed.
End Launch.

Lemma hooks_forward_once_and_stop_witness :
  Forall (λ ev, isChildExit ev = false) [HostSIGINT; HostSIGINT; HostExit]
  ∧ killsBy interruptChild
      (steps "sleep" ["10"] (spawn (mkOptions None None))
         [HostSIGINT; HostSIGINT; HostExit])
    = ["SIGINT"].
Proof.
  assert (Forall (λ ev, isChildExit ev = false) [HostSIGINT; HostSIGINT; HostExit])
    as H by (repeat constructor).
  split; [exact H|].
  exact (proj1 (hooks_forward_once_and_stop "sleep" ["10"] (mkOptions None None)
                  [HostSIGINT; HostSIGINT; HostExit] [HostSIGINT] None
                  (Some "SIGINT") H)).
Defined.

(** *** The flush function of a launch *)

Lemma bound_spawn (options : SpawnOptions) :
  Bound (transformStdio (default inherit (outputMode options))).2 (spawn options).
Proof. unfold spawn. by destruct (transformStdio _). Qed.

Lemma bound_step (cmd : string) (arguments : list string) (f : Flush)
    (c : Coordinator) (ev : Event) :
  Bound f c → Bound f (step cmd arguments c ev).
Proof.
  intros [Hf He]. destruct ev as [| |exitCode sig|cause|ch chunk]; cbn [step].
  - destruct (processExit c) as [|h hs]; [by split|].
    assert (∀ hs c', Bound f c' → Bound f (foldl (λ c h, callHook h c) c' hs)) as Hfold.
    { clear. intros hs. induction hs as [|h hs IH]; intros c' Hc'; [done|].
      cbn [foldl]. apply IH. destruct Hc'. by destruct h. }
    apply Hfold. by split.
  - assert (∀ hs c', Bound f c' → Bound f (foldl (λ c h, callHook h c) c' hs)) as Hfold.
    { clear. intros hs. induction hs as [|h hs IH]; intros c' Hc'; [done|].
      cbn [foldl]. apply IH. destruct Hc'. by destruct h. }
    apply Hfold. by split.
  - destruct (childExit c); [|by split].
    unfold settle. cbn [promise].
    destruct (promise c) as [s|] eqn:Hp.
    + split; [done|]. unfold failure. cbn [promise].
      intros e Hfail. apply He. unfold failure. by rewrite Hp.
    + split; [done|]. unfold failure, outcome. cbn [promise flushStdio].
      destruct (_ && _); [done|]. intros e [= <-]. done.
  - destruct (childError c); [|by split].
    unfold settle. cbn [promise].
    destruct (promise c) as [s|] eqn:Hp.
    + split; [done|]. unfold failure. cbn [promise].
      intros e Hfail. apply He. unfold failure. by rewrite Hp.
    + split; [done|]. unfold failure. cbn [promise]. done.
  - by split.
Qed.

Lemma bound_steps (cmd : string) (arguments : list string) (f : Flush)
    (evs : list Event) (c : Coordinator) :
  Bound f c → Bound f (steps cmd arguments c evs).
Proof.
  revert c. induction evs as [|ev evs IH]; intros c Hc; [done|].
  cbn [steps foldl]. by apply IH, bound_step.
Qed.

(** C8. In a launch with the "inherit" output mode, every call of
    [flushOutput] on the failure the promise was rejected with throws the
    error [Switch to 'buffered' output mode to flush buffers] to its
    caller, whatever the selector, and leaves the streams as they were:
    no sink receives anything. *)
Theorem flushOutput_throws_when_inherited (cmd : string)
    (arguments : list string) (options : SpawnOptions) (evs : list Event)
    (e : SpawnFailure) (stream : option StreamName) (io : Stdio) :
  default inherit (outputMode options) = inherit →
  failure (steps cmd arguments (spawn options) evs) = Some e →
  flushOutput e stream io
  = (inl (mkError "Switch to 'buffered' output mode to flush buffers"), io)
  ∧ ∀ prefix ch, sink prefix ch (flushOutput e stream io).2 = sink prefix ch io.
Proof.
  intros Hmode Hfail.
  destruct (bound_steps cmd arguments _ evs _ (bound_spawn options)) as [_ Hb].
  specialize (Hb e Hfail). rewrite Hmode in Hb.
  unfold flushOutput. rewrite Hb. done.
Qed.

Lemma flushOutput_throws_when_inherited_witness :
  default inherit (outputMode (mkOptions None None)) = inherit
  ∧ failure (steps "npx" ["tsx"] (spawn (mkOptions None None))
               [ChildData Err "failure"; ChildExit (Some 123%Z) None])
    = Some (newSpawnFailure "npx" ["tsx"] (Some 123%Z) None
              (transformStdio inherit).2)
  ∧ (flushOutput
       (newSpawnFailure "npx" ["tsx"] (Some 123%Z) None (transformStdio inherit).2)
       (Some stderr) (mkStdio [(1, "failure")] None)).1
    = inl (mkError "Switch to 'buffered' output mode to flush buffers").
Proof.
  split; [reflexivity|]. split; [reflexivity|].
  exact (f_equal fst
           (proj1 (flushOutput_throws_when_inherited "npx" ["tsx"]
                     (mkOptions None None)
                     [ChildData Err "failure"; ChildExit (Some 123%Z) None]
                     (newSpawnFailure "npx" ["tsx"] (Some 123%Z) None
                        (transformStdio inherit).2)
                     (Some stderr) (mkStdio [(1, "failure")] None)
                     eq_refl eq_refl))).
Defined.

(** *** The buffered mode *)

Lemma buffered_step (cmd : string) (arguments : list string)
    (c : Coordinator) (ev : Event) :
  is_Some (transform (stdio c)) →
  is_Some (transform (stdio (step cmd arguments c ev))).
Proof.
  intros Hc.
  assert (∀ hs c', stdio (foldl (λ c h, callHook h c) c' hs) = stdio c') as Hfold.
  { intros hs. induction hs as [|h hs IH]; intros c'; [done|].
    cbn [foldl]. rewrite IH. by destruct h. }
  destruct ev as [| |exitCode sig|cause|ch chunk]; cbn [step].
  - by rewrite Hfold.
  - by rewrite Hfold.
  - destruct (childExit c); [|done].
    match goal with |- context [settle ?s ?c'] =>
      destruct (settle_fields s c') as (_ & _ & _ & _ & -> & _) end.
    done.
  - destruct (childError c); [|done].
    match goal with |- context [settle ?s ?c'] =>
      destruct (settle_fields s c') as (_ & _ & _ & _ & -> & _) end.
    done.
  - cbn [stdio childData transform]. destruct Hc as [t ->]. by eexists.
Qed.

Lemma buffered_steps (cmd : string) (arguments : list string)
    (evs : list Event) (c : Coordinator) :
  is_Some (transform (stdio c)) →
  is_Some (transform (stdio (steps cmd arguments c evs))).
Proof.
  revert c. induction evs as [|ev evs IH]; intros c Hc; [done|].
  cbn [steps foldl]. by apply IH, buffered_step.
Qed.

Lemma childDatas_destroyed (more : list (Channel * Buffer)) (io : Stdio)
    (t : MBT.State) :
  transform io = Some t → MBT.allDestroyed t →
  transform (childDatas more io) = Some t.
Proof.
  intros Ht Hd. revert io Ht.
  induction more as [|[ch chunk] more IH]; intros io Ht; [done|].
  cbn [childDatas foldl fst snd]. apply IH.
  unfold childData. cbn [transform]. rewrite Ht. cbn.
  by rewrite write_destroyed.
Qed.

(** C9. In a launch with the "buffered" output mode, a call of
    [flushOutput] on the failure, with any selector, completes normally
    and leaves the multi-buffered transform flushed for that selector and
    then destroyed: every output stream is destroyed. Whatever the child
    writes afterwards, a second call completes normally too and no sink
    receives anything from it. *)
Theorem flushOutput_flushes_then_destroys (cmd : string)
    (arguments : list string) (options : SpawnOptions) (evs : list Event)
    (e : SpawnFailure) (stream1 stream2 : option StreamName)
    (more : list (Channel * Buffer)) :
  outputMode options = Some buffered →
  failure (steps cmd arguments (spawn options) evs) = Some e →
  let io := stdio (steps cmd arguments (spawn options) evs) in
  let first := flushOutput e stream1 io in
  let second := flushOutput e stream2 (childDatas more first.2) in
  ∃ t, transform io = Some t
    ∧ first.1 = inr ()
    ∧ transform first.2
      = Some (MBT.destroy (MBT.flush (determineStream (default both stream1)) t))
    ∧ MBT.allDestroyed
        (MBT.destroy (MBT.flush (determineStream (default both stream1)) t))
    ∧ second.1 = inr ()
    ∧ ∀ prefix ch, sink prefix ch second.2 = sink prefix ch first.2.
Proof.
  intros Hmode Hfail. cbn zeta.
  destruct (bound_steps cmd arguments _ evs _ (bound_spawn options)) as [_ Hb].
  specialize (Hb e Hfail). rewrite Hmode in Hb.
  change (default inherit (Some buffered)) with buffered in Hb.
  destruct (buffered_steps cmd arguments evs (spawn options)) as [t Ht].
  { unfold spawn. rewrite Hmode. cbn. by eexists. }
  set (io := stdio (steps cmd arguments (spawn options) evs)) in *.
  set (t1 := MBT.destroy (MBT.flush (determineStream (default both stream1)) t)).
  assert (MBT.allDestroyed t1) as Hd by apply allDestroyed_destroy.
  assert (flushOutput e stream1 io = (inr (), mkStdio (childOutput io) (Some t1)))
    as Hfirst.
  { unfold flushOutput. rewrite Hb. cbn. by rewrite Ht. }
  exists t. rewrite Hfirst. cbn [fst snd transform].
  split; [done|]. split; [done|]. split; [done|]. split; [done|].
  pose proof (childDatas_destroyed more (mkStdio (childOutput io) (Some t1)) t1
                eq_refl Hd) as Hmore.
  unfold flushOutput. rewrite Hb. cbn [transformStdio snd fst].
  rewrite Hmore. split; [done|].
  intros prefix ch. unfold sink, source. cbn [transform fmap option_fmap option_map].
  f_equal. rewrite received_destroy, flush_destroyed by done. done.
Qed.

Lemma flushOutput_flushes_then_destroys_witness :
  outputMode (mkOptions (Some buffered) None) = Some buffered
  ∧ failure (steps "npx" ["tsx"] (spawn (mkOptions (Some buffered) None))
               [ChildData Err "failed"; ChildExit (Some 1%Z) None])
    = Some (newSpawnFailure "npx" ["tsx"] (Some 1%Z) None
              (transformStdio buffered).2)
  ∧ ∃ t, transform (stdio (steps "npx" ["tsx"]
                             (spawn (mkOptions (Some buffered) None))
                             [ChildData Err "failed"; ChildExit (Some 1%Z) None]))
         = Some t.
Proof.
  split; [reflexivity|]. split; [reflexivity|].
  destruct (flushOutput_flushes_then_destroys "npx" ["tsx"]
              (mkOptions (Some buffered) None)
              [ChildData Err "failed"; ChildExit (Some 1%Z) None]
              (newSpawnFailure "npx" ["tsx"] (Some 1%Z) None
                 (transformStdio buffered).2)
              None None [] eq_refl eq_refl) as (t & Ht & _).
  exists t. exact Ht.
Defined.

(** *** Flushing one stream of a failed launch *)

Lemma buffering_steps (cmd : string) (arguments : list string)
    (evs : list Event) (c : Coordinator) :
  Buffering c → Buffering (steps cmd arguments c evs).
Proof.
  assert (∀ hs c', stdio (foldl (λ c h, callHook h c) c' hs) = stdio c') as Hfold.
  { intros hs. induction hs as [|h hs IH]; intros c'; [done|].
    cbn [foldl]. rewrite IH. by destruct h. }
  revert c. induction evs as [|ev evs IH]; intros c Hc; [done|].
  cbn [steps foldl]. apply IH. unfold Buffering in *.
  destruct ev as [| |exitCode sig|cause|ch chunk]; cbn [step].
  - by rewrite Hfold.
  - by rewrite Hfold.
  - destruct (childExit c); [|done].
    match goal with |- context [settle ?s ?c'] =>
      destruct (settle_fields s c') as (_ & _ & _ & _ & -> & _) end.
    done.
  - destruct (childError c); [|done].
    match goal with |- context [settle ?s ?c'] =>
      destruct (settle_fields s c') as (_ & _ & _ & _ & -> & _) end.
    done.
  - destruct Hc as (t & Ht & Hr). cbn [stdio childData transform].
    rewrite Ht. eexists. split; [done|]. by apply reached_write.
Qed.

Lemma kept_process_stdout (entries : list (Buffer * nat)) :
  filter (kept (Some process_stdout) (map_seq 0 [child_stdout; child_stderr]))
    entries = [].
Proof.
  induction entries as [|[chunk t] entries IH]; [done|].
  rewrite filter_cons_False; [done|].
  unfold kept. cbn [snd]. rewrite lookup_map_seq_0.
  by destruct t as [|[|t]].
Qed.

(** X14. Whatever the child wrote, [flushOutput("stdout")] and
    [flushOutput("stderr")] of a buffered launch hand nothing to any sink:
    [determineStream] answers [process.stdout] for both names, which is not
    an input of the transform. *)
Lemma flushOutput_one_stream_skips_everything (cmd : string)
    (arguments : list string) (options : SpawnOptions) (evs : list Event)
    (e : SpawnFailure) (stream : StreamName) :
  outputMode options = Some buffered →
  failure (steps cmd arguments (spawn options) evs) = Some e →
  stream ≠ both →
  let io := stdio (steps cmd arguments (spawn options) evs) in
  ∀ prefix ch, sink prefix ch (flushOutput e (Some stream) io).2 = sink prefix ch io.
Proof.
  intros Hmode Hfail Hstream. cbn zeta.
  destruct (bound_steps cmd arguments _ evs _ (bound_spawn options)) as [_ Hb].
  specialize (Hb e Hfail). rewrite Hmode in Hb.
  change (default inherit (Some buffered)) with buffered in Hb.
  destruct (buffering_steps cmd arguments evs (spawn options)) as (t & Ht & Hr).
  { unfold Buffering, spawn. rewrite Hmode. cbn. eexists. split; [done|].
    apply reached_create. }
  intros prefix ch. unfold flushOutput. rewrite Hb.
  cbn [transformStdio snd fst]. unfold sink, source. cbn [transform].
  rewrite Ht. cbn [fmap option_fmap option_map]. f_equal.
  rewrite received_destroy.
  replace (determineStream _) with (Some process_stdout) by (by destruct stream).
  destruct Hr as [Hi Hl Ho Hv _].
  destruct (flush_loop (Some process_stdout) (buffer t) (setBuffer [] t))
    as [_ _ _ _ _ Fr].
  { done. }
  { cbn. by rewrite Hl. }
  unfold MBT.flush. rewrite Fr. cbn [inputPerOutput setBuffer].
  rewrite Hi, kept_process_stdout. cbn. apply app_nil_r.
Qed.

(** C2, on the code. A buffered launch whose child writes [starting] to
    its standard output and [failed] to its standard error, then exits with
    code 1. [flushOutput("stderr")] hands nothing to the sink of the
    standard error, nor to the sink of the standard output, although the
    chunk of the standard error was buffered: [flushOutput("both")] on the
    same state hands it over. [determineStream] answers [process.stdout]
    for "stderr", and no transform was made from that stream. *)
Theorem flushOutput_stderr_delivers_nothing :
  let c := steps "some-command" ["--fail"]
             (spawn (mkOptions (Some buffered) None))
             [ChildData Out ("starting" +:+ newline);
              ChildData Err ("failed" +:+ newline);
              ChildExit (Some 1%Z) None] in
  match failure c with
  | Some e =>
      sink None Err (flushOutput e (Some stderr) (stdio c)).2 = []
      ∧ sink None Out (flushOutput e (Some stderr) (stdio c)).2 = []
      ∧ sink None Err (flushOutput e (Some both) (stdio c)).2
        = ["failed" +:+ newline]
  | None => False
  end.
Proof. vm_compute. done. Qed.

End SpawnSpec.

(** * Further properties *)

(** ** MultiBufferedTransform: buffering, clearing, destroying *)

Module MultiBufferedTransformMore.
Import MultiBufferedTransform MultiBufferedTransformSpec.

Lemma write_keeps (t : nat) (chunk : Buffer) (st : State) :
  pushes (write t chunk st) = pushes st
  ∧ outputs (write t chunk st) = outputs st
  ∧ inputPerOutput (write t chunk st) = inputPerOutput st.
Proof.
  unfold write. destruct (outputs st !! t) as [tr|]; [|done].
  by destruct (destroyed tr).
Qed.

Lemma arrive_keeps (arrivals : list (nat * Buffer)) (st : State) :
  pushes (arrive arrivals st) = pushes st
  ∧ outputs (arrive arrivals st) = outputs st.
Proof.
  revert st. induction arrivals as [|[t chunk] arrivals IH]; intros st; [done|].
  change (arrive ((t, chunk) :: arrivals) st)
    with (arrive arrivals (write t chunk st)).
  destruct (IH (write t chunk st)) as [-> ->].
  by destruct (write_keeps t chunk st) as (-> & -> & _).
Qed.

(** X1. Writing only fills the buffer: whatever arrives, in whatever state,
    no output accepts anything until a flush. *)
Theorem writes_deliver_nothing (arrivals : list (nat * Buffer)) (st : State) :
  pushes (arrive arrivals st) = pushes st
  ∧ ∀ i, received i (arrive arrivals st) = received i st.
Proof.
  destruct (arrive_keeps arrivals st) as [Hp Ho].
  split; [done|]. intros i. unfold received. by rewrite Ho.
Qed.

Lemma transformPush_cases (t : nat) (chunk : Buffer) (st : State) :
  transformPush t chunk st = st
  ∨ (pushes (transformPush t chunk st) = pushes st ++ [(t, chunk)]
     ∧ buffer (transformPush t chunk st) = buffer st).
Proof.
  unfold transformPush. destruct (outputs st !! t) as [tr|]; [|by left].
  destruct (destroyed tr); [by left|by right].
Qed.

Lemma transformPush_keeps (t : nat) (chunk : Buffer) (st : State) :
  buffer (transformPush t chunk st) = buffer st
  ∧ inputPerOutput (transformPush t chunk st) = inputPerOutput st.
Proof.
  unfold transformPush. destruct (outputs st !! t) as [tr|]; [|done].
  by destruct (destroyed tr).
Qed.

Lemma flushEntry_cases (stream : option StreamRef) (st : State)
    (entry : Buffer * nat) :
  flushEntry stream st entry = st
  ∨ (pushes (flushEntry stream st entry) = pushes st ++ asArrivals [entry]
     ∧ buffer (flushEntry stream st entry) = buffer st).
Proof.
  destruct entry as [chunk t]. unfold flushEntry.
  destruct (match stream with Some only => _ | None => _ end); [by left|].
  apply transformPush_cases.
Qed.

Lemma flushEntry_keeps (stream : option StreamRef) (st : State)
    (entry : Buffer * nat) :
  buffer (flushEntry stream st entry) = buffer st
  ∧ inputPerOutput (flushEntry stream st entry) = inputPerOutput st.
Proof.
  destruct entry as [chunk t]. unfold flushEntry.
  destruct (match stream with Some only => _ | None => _ end); [done|].
  apply transformPush_keeps.
Qed.

Lemma flush_loop_keeps (stream : option StreamRef) (entries : list (Buffer * nat))
    (st : State) :
  buffer (foldl (flushEntry stream) st entries) = buffer st
  ∧ inputPerOutput (foldl (flushEntry stream) st entries) = inputPerOutput st.
Proof.
  revert st. induction entries as [|entry entries IH]; intros st; [done|].
  cbn [foldl]. destruct (IH (flushEntry stream st entry)) as [-> ->].
  apply flushEntry_keeps.
Qed.

Lemma flush_empties (stream : option StreamRef) (st : State) :
  buffer (flush stream st) = [].
Proof. unfold flush. by destruct (flush_loop_keeps stream (buffer st) (setBuffer [] st)) as [-> _]. Qed.

(** X3. A flush leaves the buffer empty in every state, so a flush that
    follows another one, with any selectors, changes nothing: no chunk is
    delivered twice. *)
Theorem second_flush_changes_nothing (stream1 stream2 : option StreamRef)
    (st : State) :
  buffer (flush stream1 st) = []
  ∧ flush stream2 (flush stream1 st) = flush stream1 st.
Proof.
  pose proof (flush_empties stream1 st) as Hb. split; [done|].
  unfold flush at 1. rewrite Hb. cbn [foldl]. unfold setBuffer.
  rewrite <- Hb. by destruct (flush stream1 st).
Qed.

Lemma call_destroyed (st : State) (c : Call) :
  allDestroyed st →
  allDestroyed (call st c)
  ∧ pushes (call st c) = pushes st
  ∧ outputs (call st c) = outputs st.
Proof.
  intros Hd. destruct c as [t chunk|stream| |]; cbn [call].
  - by rewrite write_destroyed.
  - by rewrite flush_destroyed.
  - done.
  - split; [apply allDestroyed_destroy|]. split; [done|].
    unfold destroy. cbn [outputs]. apply list_eq. intros i.
    rewrite list_lookup_fmap. unfold allDestroyed in Hd.
    rewrite Forall_lookup in Hd.
    destruct (outputs st !! i) as [[d r]|] eqn:Hi; [|done].
    specialize (Hd _ _ Hi). cbn in Hd. by subst d.
Qed.

(** X4. After [destroy()], nothing is delivered any more: whatever is
    written, flushed or cleared afterwards, the outputs hold what they held
    when they were destroyed. *)
Theorem nothing_delivered_after_destroy (st : State) (cs : list Call) :
  pushes (calls (destroy st) cs) = pushes st
  ∧ ∀ i, received i (calls (destroy st) cs) = received i st.
Proof.
  assert (∀ st', allDestroyed st' →
            pushes (calls st' cs) = pushes st'
            ∧ outputs (calls st' cs) = outputs st') as Hcalls.
  { induction cs as [|c cs IH]; intros st' Hd; [done|].
    cbn [calls foldl]. destruct (call_destroyed st' c Hd) as (Hd' & <- & <-).
    by apply IH. }
  destruct (Hcalls (destroy st) (allDestroyed_destroy st)) as [Hp Ho].
  split; [exact Hp|]. intros i. rewrite <- (received_destroy i st).
  unfold received. by rewrite Ho.
Qed.

Lemma flush_loop_sublist (stream : option StreamRef)
    (entries : list (Buffer * nat)) (st : State) :
  ∃ sub, sub `sublist_of` entries
    ∧ pushes (foldl (flushEntry stream) st entries) = pushes st ++ asArrivals sub.
Proof.
  revert st. induction entries as [|entry entries IH]; intros st.
  { exists []. split; [done|]. cbn. by rewrite app_nil_r. }
  cbn [foldl]. destruct (IH (flushEntry stream st entry)) as (sub & Hsub & ->).
  destruct (flushEntry_cases stream st entry) as [->|[-> _]].
  - exists sub. split; [by constructor|done].
  - exists (entry :: sub). split; [by constructor|].
    by rewrite <- app_assoc.
Qed.

Lemma calls_sublist (cs : list Call) (st : State) (ws : list (nat * Buffer)) :
  (pushes st ++ asArrivals (buffer st)) `sublist_of` ws →
  (pushes (calls st cs) ++ asArrivals (buffer (calls st cs)))
    `sublist_of` (ws ++ writesOf cs).
Proof.
  revert st ws. induction cs as [|c cs IH]; intros st ws Hst.
  { cbn. by rewrite app_nil_r. }
  cbn [calls foldl]. fold (calls (call st c) cs).
  assert (∃ w, writesOf (c :: cs) = w ++ writesOf cs
            ∧ (pushes (call st c) ++ asArrivals (buffer (call st c)))
                `sublist_of` (ws ++ w)) as (w & -> & Hc).
  { destruct c as [t chunk|stream| |]; cbn [call].
    - exists [(t, chunk)]. split; [done|].
      unfold write. destruct (outputs st !! t) as [tr|].
      + destruct (destroyed tr); [by apply sublist_inserts_r|].
        cbn [pushes buffer setBuffer]. rewrite asArrivals_app, app_assoc.
        by apply sublist_app.
      + by apply sublist_inserts_r.
    - exists []. split; [done|]. rewrite app_nil_r, flush_empties.
      unfold flush.
      destruct (flush_loop_sublist stream (buffer st) (setBuffer [] st))
        as (sub & Hsub & ->).
      cbn [pushes setBuffer asArrivals fmap list_fmap]. rewrite app_nil_r.
      etrans; [|exact Hst]. apply sublist_app; [done|].
      by apply fmap_sublist.
    - exists []. split; [done|]. rewrite app_nil_r. cbn.
      rewrite app_nil_r. etrans; [|exact Hst]. by apply sublist_inserts_r.
    - exists []. split; [done|]. by rewrite app_nil_r. }
  rewrite app_assoc. by apply IH.
Qed.

(** X5. Whatever is called on the module after its creation, the chunks
    delivered so far followed by the chunks still buffered are a
    subsequence of the chunks written, each with its own channel: no chunk
    is made up, moved to another channel, delivered twice or out of order. *)
Theorem deliveries_come_from_writes (inputs : list StreamRef) (cs : list Call) :
  let st := calls (createMultiBufferedTransform inputs) cs in
  (pushes st ++ asArrivals (buffer st)) `sublist_of` writesOf cs.
Proof.
  cbn zeta. apply (calls_sublist cs (createMultiBufferedTransform inputs) []).
  done.
Qed.

Lemma call_inputs (st : State) (c : Call) :
  inputPerOutput (call st c) = inputPerOutput st.
Proof.
  destruct c as [t chunk|stream| |]; cbn [call]; try done.
  - by destruct (write_keeps t chunk st) as (_ & _ & ->).
  - unfold flush.
    by destruct (flush_loop_keeps stream (buffer st) (setBuffer [] st)) as [_ ->].
Qed.

Lemma calls_inputs (cs : list Call) (st : State) :
  inputPerOutput (calls st cs) = inputPerOutput st.
Proof.
  revert st. induction cs as [|c cs IH]; intros st; [done|].
  cbn [calls foldl]. fold (calls (call st c) cs). by rewrite IH, call_inputs.
Qed.

(** X6. A flush for a stream that is none of the inputs delivers nothing and
    throws the whole buffer away: it does what [clear()] does. *)
Theorem flush_for_a_foreign_stream_clears (inputs : list StreamRef)
    (cs : list Call) (foreign : StreamRef) :
  foreign ∉ inputs →
  let st := calls (createMultiBufferedTransform inputs) cs in
  flush (Some foreign) st = clear st.
Proof.
  intros Hforeign. cbn zeta.
  set (st := calls (createMultiBufferedTransform inputs) cs).
  assert (inputPerOutput st = map_seq 0 inputs) as Hin by apply calls_inputs.
  unfold flush, clear.
  assert (∀ entries st', inputPerOutput st' = map_seq 0 inputs →
            foldl (flushEntry (Some foreign)) st' entries = st') as Hloop.
  { induction entries as [|entry entries IH]; intros st' Hst'; [done|].
    cbn [foldl]. rewrite flushEntry_skipped; [by apply IH|].
    unfold kept. rewrite Hst', lookup_map_seq_0. intros Hl.
    apply Hforeign. by eapply list_elem_of_lookup_2. }
  by apply Hloop.
Qed.

Lemma flush_for_a_foreign_stream_clears_witness :
  (process_stdout ∉ [child_stdout; child_stderr])
  ∧ pushes (flush (Some process_stdout)
              (calls (createMultiBufferedTransform [child_stdout; child_stderr])
                 [Write 0 "out"; Write 1 "err"]))
    = [].
Proof.
  assert (process_stdout ∉ [child_stdout; child_stderr]) as H.
  { intros Hin. apply elem_of_cons in Hin as [Hin|Hin]; [discriminate Hin|].
    apply list_elem_of_singleton in Hin. discriminate Hin. }
  split; [exact H|].
  exact (f_equal pushes
           (flush_for_a_foreign_stream_clears [child_stdout; child_stderr]
              [Write 0 "out"; Write 1 "err"] process_stdout H)).
Defined.

(** X2. [clear()] throws away what was written before it and nothing else:
    when more chunks arrive after the clear, a following [flush()] delivers
    exactly those, in their order of arrival. *)
Theorem clear_discards_earlier_writes (inputs : list StreamRef) (cs : list Call)
    (later : list (nat * Buffer)) :
  Forall (λ c, isDestroy c = false) cs →
  Forall (λ a, a.1 < length inputs) later →
  let st := calls (createMultiBufferedTransform inputs) cs in
  pushes (flush None (arrive later (clear st))) = pushes st ++ later
  ∧ ∀ i, received i (flush None (arrive later (clear st)))
         = received i st ++ ofChannel i later.
Proof.
  intros Hcs Hlater. cbn zeta.
  pose proof (reached_calls inputs cs _ (reached_create inputs) Hcs) as Hst.
  apply reached_clear in Hst.
  destruct (flush_all inputs later _ Hst Hlater) as (Hp & _ & Hr).
  split; [exact Hp|]. intros i. exact (Hr i).
Qed.

Lemma clear_discards_earlier_writes_witness :
  Forall (λ c, isDestroy c = false) [Write 0 "hello"]
  ∧ Forall (λ a : nat * Buffer, a.1 < length [stream_at 1]) [(0, "great"); (0, "world")]
  ∧ pushes (flush None (arrive [(0, "great"); (0, "world")]
                          (clear (calls (createMultiBufferedTransform [stream_at 1])
                                    [Write 0 "hello"]))))
    = [(0, "great"); (0, "world")].
Proof.
  assert (Forall (λ c, isDestroy c = false) [Write 0 "hello"]) as H1
    by (repeat constructor).
  assert (Forall (λ a : nat * Buffer, a.1 < length [stream_at 1])
            [(0, "great"); (0, "world")]) as H2
    by (repeat constructor).
  split; [exact H1|]. split; [exact H2|].
  exact (proj1 (clear_discards_earlier_writes [stream_at 1] [Write 0 "hello"]
                  [(0, "great"); (0, "world")] H1 H2)).
Defined.

(** X7. Selecting a channel changes nothing for that channel: over distinct
    inputs and open outputs, the output of channel [X] receives from
    [flush(inputs[X])] exactly what it would have received from [flush()]. *)
Theorem selected_channel_gets_what_flush_all_gives (inputs : list StreamRef)
    (cs : list Call) (X : nat) (input : StreamRef) :
  NoDup inputs →
  inputs !! X = Some input →
  Forall (λ c, isDestroy c = false) cs →
  let st := calls (createMultiBufferedTransform inputs) cs in
  received X (flush (Some input) st) = received X (flush None st).
Proof.
  intros Hnd HX Hcs. cbn zeta.
  pose proof (reached_calls inputs cs _ (reached_create inputs) Hcs) as Hst.
  set (st := calls (createMultiBufferedTransform inputs) cs) in *.
  destruct (flush_all inputs [] st Hst (Forall_nil_2 _)) as (_ & _ & Hall).
  change (arrive [] st) with st in Hall. rewrite Hall, app_nil_r.
  destruct Hst as [Hi Hl Ho Hv Hr].
  assert (Flushed (Some input) (buffer st) (setBuffer [] st) (flush (Some input) st))
    as [_ _ _ _ _ Fr].
  { apply flush_loop; [done|]. cbn. by rewrite Hl. }
  rewrite Fr. cbn [inputPerOutput setBuffer].
  rewrite Hi, (filter_kept_channel inputs X input _ Hnd HX), ofChannel_filter.
  by rewrite decide_True.
Qed.

Lemma selected_channel_gets_what_flush_all_gives_witness :
  NoDup [stream_at 1; stream_at 2]
  ∧ [stream_at 1; stream_at 2] !! 1 = Some (stream_at 2)
  ∧ Forall (λ c, isDestroy c = false) [Write 0 "hello"; Write 1 "world"]
  ∧ received 1 (flush (Some (stream_at 2))
                  (calls (createMultiBufferedTransform [stream_at 1; stream_at 2])
                     [Write 0 "hello"; Write 1 "world"]))
    = ["world"].
Proof.
  assert (NoDup [stream_at 1; stream_at 2]) as H1.
  { apply NoDup_cons. split; [|apply NoDup_singleton].
    intros Hin. apply list_elem_of_singleton in Hin. discriminate Hin. }
  assert ([stream_at 1; stream_at 2] !! 1 = Some (stream_at 2)) as H2
    by reflexivity.
  assert (Forall (λ c, isDestroy c = false) [Write 0 "hello"; Write 1 "world"])
    as H3 by (repeat constructor).
  split; [exact H1|]. split; [exact H2|]. split; [exact H3|].
  exact (selected_channel_gets_what_flush_all_gives [stream_at 1; stream_at 2]
           [Write 0 "hello"; Write 1 "world"] 1 (stream_at 2) H1 H2 H3).
Defined.

End MultiBufferedTransformMore.

(** ** PrefixingTransform: edge cases of one chunk *)

Module PrefixingTransformMore.
Import Text TextFacts PrefixingTransform PrefixingTransformSpec.

Lemma frame_empty_prefix (np : bool) (text : string) : frame "" np text = text.
Proof.
  revert np. induction text as [|c rest IH]; intros np; [done|].
  cbn [frame]. rewrite IH. by destruct np.
Qed.

(** X8. With the empty prefix the transform changes nothing: what comes out
    is the decoded text of the chunks, whatever the chunks and the state. *)
Theorem empty_prefix_passes_through {Buffer : Type} (toString : Buffer → string)
    (chunks : list Buffer) (st : PrefixingState) :
  output (run toString "" chunks st) = output st +:+ join (toString <$> chunks).
Proof.
  destruct (run_frame toString "" chunks st) as [-> _].
  by rewrite frame_empty_prefix.
Qed.

Lemma split_without_LF (text : string) : hasLF text = false → split text = [text].
Proof.
  induction text as [|c rest IH]; [done|]. cbn [hasLF split].
  intros [Hc Hrest]%orb_false_iff. rewrite Hc, (IH Hrest). done.
Qed.

(** X9. A chunk whose text is not empty and holds no line feed is pushed as
    it is, after the prefix when one is owed, and leaves [needsPrefix]
    false: the line it belongs to is still open. *)
Theorem chunk_without_line_feed {Buffer : Type} (toString : Buffer → string)
    (prefix : string) (chunk : Buffer) (st : PrefixingState) :
  toString chunk ≠ "" →
  hasLF (toString chunk) = false →
  pushed (transform toString prefix chunk st)
  = pushed st ++ (if needsPrefix st then [prefix] else []) ++ [toString chunk]
  ∧ needsPrefix (transform toString prefix chunk st) = false.
Proof.
  intros Hne Hno. unfold transform. rewrite (split_without_LF _ Hno).
  cbn [pop last removelast foldl pushRemaining].
  destruct (toString chunk) as [|c rest]; [done|]. cbn [truthy].
  unfold pushPrefixIfNeeded. destruct (needsPrefix st) eqn:Hnp; cbn.
  - by rewrite <- List.app_assoc.
  - by rewrite Hnp.
Qed.

Lemma chunk_without_line_feed_witness :
  utf8 "abc" ≠ ""
  ∧ hasLF (utf8 "abc") = false
  ∧ pushed (transform utf8 "[P] " "abc" createPrefixingTransform) = ["[P] "; "abc"].
Proof.
  assert (utf8 "abc" ≠ "") as H1 by discriminate.
  split; [exact H1|]. split; [reflexivity|].
  exact (proj1 (chunk_without_line_feed utf8 "[P] " "abc" createPrefixingTransform
                  H1 eq_refl)).
Defined.

Lemma split_lineFeeds (n : nat) : split (lineFeeds n) = replicate (S n) "".
Proof.
  induction n as [|n IH]; [done|].
  cbn [lineFeeds split]. rewrite IH.
  replace (isLF LF) with true by (symmetry; by apply bool_decide_eq_true_2).
  done.
Qed.

Lemma pop_replicate {A : Type} (n : nat) (x : A) :
  pop (replicate (S n) x) = (Some x, replicate n x).
Proof.
  unfold pop. f_equal.
  - induction n as [|n IH]; [done|]. exact IH.
  - induction n as [|n IH]; [done|].
    change (removelast (replicate (S (S n)) x))
      with (x :: removelast (replicate (S n) x)).
    by rewrite IH.
Qed.

Lemma pushLine_empty_lines (prefix : string) (n : nat) (st : PrefixingState) :
  needsPrefix st = true →
  foldl (pushLine prefix) st (replicate n "")
  = mkPrefixingState true (pushed st ++ concat (replicate n [prefix; newline])).
Proof.
  revert st. induction n as [|n IH]; intros st Hnp.
  { cbn. rewrite List.app_nil_r. destruct st as [np ps]. cbn in Hnp. by subst np. }
  cbn [replicate foldl]. rewrite IH by done.
  unfold pushLine, pushPrefixIfNeeded. rewrite Hnp. cbn.
  by rewrite <- !List.app_assoc.
Qed.

(** X10. A chunk of [n] line feeds, arriving at the start of a line, is
    pushed as [n] times the prefix followed by a line feed, and leaves the
    transform at the start of a line. *)
Theorem chunk_of_line_feeds {Buffer : Type} (toString : Buffer → string)
    (prefix : string) (chunk : Buffer) (n : nat) (st : PrefixingState) :
  needsPrefix st = true →
  toString chunk = lineFeeds n →
  pushed (transform toString prefix chunk st)
  = pushed st ++ concat (replicate n [prefix; newline])
  ∧ needsPrefix (transform toString prefix chunk st) = true.
Proof.
  intros Hnp Htext. unfold transform.
  rewrite Htext, split_lineFeeds, pop_replicate, pushLine_empty_lines by done.
  done.
Qed.

Lemma chunk_of_line_feeds_witness :
  needsPrefix createPrefixingTransform = true
  ∧ utf8 (newline +:+ newline +:+ newline) = lineFeeds 3
  ∧ pushed (transform utf8 "[PREFIX] " (newline +:+ newline +:+ newline)
              createPrefixingTransform)
    = ["[PREFIX] "; newline; "[PREFIX] "; newline; "[PREFIX] "; newline].
Proof.
  split; [reflexivity|]. split; [reflexivity|].
  exact (proj1 (chunk_of_line_feeds utf8 "[PREFIX] "
                  (newline +:+ newline +:+ newline) 3 createPrefixingTransform
                  eq_refl eq_refl)).
Defined.

(** X11. A transform that stands at the start of a line has no memory of
    what went through it: from there on it puts out what a fresh transform
    puts out for the same chunks. *)
Theorem at_line_start_like_fresh {Buffer : Type} (toString : Buffer → string)
    (prefix : string) (chunks : list Buffer) (st : PrefixingState) :
  needsPrefix st = true →
  output (run toString prefix chunks st)
  = output st +:+ output (run toString prefix chunks createPrefixingTransform).
Proof.
  intros Hnp.
  destruct (run_frame toString prefix chunks st) as [-> _].
  destruct (run_frame toString prefix chunks createPrefixingTransform) as [-> _].
  by rewrite Hnp.
Qed.

Lemma at_line_start_like_fresh_witness :
  needsPrefix (transform utf8 "> " ("a" +:+ newline) createPrefixingTransform) = true
  ∧ output (run utf8 "> " ["b"]
              (transform utf8 "> " ("a" +:+ newline) createPrefixingTransform))
    = output (transform utf8 "> " ("a" +:+ newline) createPrefixingTransform)
      +:+ output (run utf8 "> " ["b"] createPrefixingTransform).
Proof.
  split; [reflexivity|].
  exact (at_line_start_like_fresh utf8 "> " ["b"]
           (transform utf8 "> " ("a" +:+ newline) createPrefixingTransform)
           eq_refl).
Defined.

End PrefixingTransformMore.

(** ** spawn: the two output modes, the promise, the hooks *)

Module SpawnMore.
Import Text MultiBufferedTransform MultiBufferedTransformSpec
  MultiBufferedTransformMore Spawn SpawnSpec.

Lemma callHooks_keep (hs : list Hook) (c : Coordinator) :
  stdio (foldl (λ c h, callHook h c) c hs) = stdio c
  ∧ promise (foldl (λ c h, callHook h c) c hs) = promise c.
Proof.
  revert c. induction hs as [|h hs IH]; intros c; [done|].
  cbn [foldl]. destruct (IH (callHook h c)) as [-> ->]. by destruct h.
Qed.

Lemma childDatas_cons (ch : Channel) (chunk : Buffer)
    (chunks : list (Channel * Buffer)) (io : Stdio) :
  childDatas ((ch, chunk) :: chunks) io = childDatas chunks (childData ch chunk io).
Proof. reflexivity. Qed.

Lemma stdio_steps (cmd : string) (arguments : list string) (evs : list Event)
    (c : Coordinator) :
  stdio (steps cmd arguments c evs) = childDatas (dataOf evs) (stdio c).
Proof.
  revert c. induction evs as [|ev evs IH]; intros c; [done|].
  cbn [steps foldl]. fold (steps cmd arguments (step cmd arguments c ev) evs).
  rewrite IH.
  destruct ev as [| |exitCode sig|cause|ch chunk]; cbn [step dataOf omap].
  - by destruct (callHooks_keep (processExit c)
                   (mkCoordinator [] (processSIGINT c) (childExit c) (childError c)
                      (kills c) (stdio c) (flushStdio c) (promise c))) as [-> _].
  - by destruct (callHooks_keep (processSIGINT c)
                   (mkCoordinator (processExit c) [] (childExit c) (childError c)
                      (kills c) (stdio c) (flushStdio c) (promise c))) as [-> _].
  - destruct (childExit c); [|done].
    match goal with |- context [settle ?s ?c'] =>
      destruct (settle_fields s c') as (_ & _ & _ & _ & -> & _) end.
    done.
  - destruct (childError c); [|done].
    match goal with |- context [settle ?s ?c'] =>
      destruct (settle_fields s c') as (_ & _ & _ & _ & -> & _) end.
    done.
  - done.
Qed.

Lemma childDatas_fields (chunks : list (Channel * Buffer)) (io : Stdio) :
  childOutput (childDatas chunks io) = childOutput io ++ tagged chunks
  ∧ transform (childDatas chunks io) = arrive (tagged chunks) <$> transform io.
Proof.
  revert io. induction chunks as [|[ch chunk] chunks IH]; intros io.
  { cbn. rewrite app_nil_r. by destruct (transform io). }
  rewrite childDatas_cons. destruct (IH (childData ch chunk io)) as [-> ->].
  cbn [childData childOutput transform]. split.
  - by rewrite <- app_assoc.
  - by destruct (transform io).
Qed.


Lemma spawn_buffered (options : SpawnOptions) :
  outputMode options = Some buffered →
  stdio (spawn options)
  = mkStdio [] (Some (createMultiBufferedTransform [child_stdout; child_stderr])).
Proof. intros Hmode. unfold spawn. by rewrite Hmode. Qed.


(** X12. A launch in the "buffered" mode prints nothing by itself: whatever
    the child writes and however it ends, no sink has received anything as
    long as [flushOutput] was not called. *)
Theorem buffered_prints_nothing_until_flushed (cmd : string)
    (arguments : list string) (options : SpawnOptions) (evs : list Event) :
  outputMode options = Some buffered →
  ∀ prefix ch, sink prefix ch (stdio (steps cmd arguments (spawn options) evs)) = [].
Proof.
  intros Hmode prefix ch. unfold sink, source.
  rewrite stdio_steps, spawn_buffered by done.
  destruct (childDatas_fields (dataOf evs)
              (mkStdio [] (Some (createMultiBufferedTransform [child_stdout; child_stderr]))))
    as [_ ->].
  cbn [transform fmap option_fmap option_map]. unfold received.
  destruct (arrive_keeps (tagged (dataOf evs))
              (createMultiBufferedTransform [child_stdout; child_stderr])) as [_ ->].
  replace (from_option _ _ _) with (@nil Buffer) by (by destruct ch).
  by destruct prefix.
Qed.

Lemma buffered_prints_nothing_until_flushed_witness :
  outputMode (mkOptions (Some buffered) (Some "[p] ")) = Some buffered
  ∧ sink (Some "[p] ") Out
      (stdio (steps "npx" ["tsx"] (spawn (mkOptions (Some buffered) (Some "[p] ")))
                [ChildData Out "ok"; ChildExit (Some 0%Z) None]))
    = [].
Proof.
  split; [reflexivity|].
  exact (buffered_prints_nothing_until_flushed "npx" ["tsx"]
           (mkOptions (Some buffered) (Some "[p] "))
           [ChildData Out "ok"; ChildExit (Some 0%Z) None] eq_refl (Some "[p] ") Out).
Defined.



Lemma flushOutput_one_stream_skips_everything_witness :
  outputMode (mkOptions (Some buffered) None) = Some buffered
  ∧ failure (steps "npx" ["tsx"] (spawn (mkOptions (Some buffered) None))
               [ChildData Out "starting"; ChildExit (Some 1%Z) None])
    = Some (newSpawnFailure "npx" ["tsx"] (Some 1%Z) None
              (transformStdio buffered).2)
  ∧ stdout ≠ both
  ∧ sink None Out
      (flushOutput
         (newSpawnFailure "npx" ["tsx"] (Some 1%Z) None (transformStdio buffered).2)
         (Some stdout)
         (stdio (steps "npx" ["tsx"] (spawn (mkOptions (Some buffered) None))
                   [ChildData Out "starting"; ChildExit (Some 1%Z) None]))).2
    = [].
Proof.
  assert (stdout ≠ both) as H by discriminate.
  split; [reflexivity|]. split; [reflexivity|]. split; [exact H|].
  exact (flushOutput_one_stream_skips_everything "npx" ["tsx"]
           (mkOptions (Some buffered) None)
           [ChildData Out "starting"; ChildExit (Some 1%Z) None]
           (newSpawnFailure "npx" ["tsx"] (Some 1%Z) None (transformStdio buffered).2)
           stdout eq_refl eq_refl H None Out).
Defined.

Lemma step_settled (cmd : string) (arguments : list string) (c : Coordinator)
    (s : Settled) (ev : Event) :
  promise c = Some s → promise (step cmd arguments c ev) = Some s.
Proof.
  intros Hs. destruct ev as [| |exitCode sig|cause|ch chunk]; cbn [step].
  - by destruct (callHooks_keep (processExit c)
                   (mkCoordinator [] (processSIGINT c) (childExit c) (childError c)
                      (kills c) (stdio c) (flushStdio c) (promise c))) as [_ ->].
  - by destruct (callHooks_keep (processSIGINT c)
                   (mkCoordinator (processExit c) [] (childExit c) (childError c)
                      (kills c) (stdio c) (flushStdio c) (promise c))) as [_ ->].
  - destruct (childExit c); [|done]. unfold settle. cbn [promise]. by rewrite Hs.
  - destruct (childError c); [|done]. unfold settle. cbn [promise]. by rewrite Hs.
  - done.
Qed.

(** X15. The promise is settled once: after it was resolved or rejected, no
    event changes how. An "error" of the child followed by its "exit"
    leaves the promise rejected with the error, and an "exit" followed by an
    "error" leaves what the exit decided. *)
Theorem promise_settles_once (cmd : string) (arguments : list string)
    (c : Coordinator) (s : Settled) (evs : list Event) :
  promise c = Some s → promise (steps cmd arguments c evs) = Some s.
Proof.
  revert c. induction evs as [|ev evs IH]; intros c Hs; [done|].
  cbn [steps foldl]. apply IH. by apply step_settled.
Qed.

Lemma promise_settles_once_witness :
  promise (step "nope" [] (spawn (mkOptions None None))
             (ChildError (mkError "spawn nope ENOENT")))
  = Some (rejectedWith (mkError "spawn nope ENOENT"))
  ∧ promise (steps "nope" []
               (step "nope" [] (spawn (mkOptions None None))
                  (ChildError (mkError "spawn nope ENOENT")))
               [ChildExit (Some 0%Z) None])
    = Some (rejectedWith (mkError "spawn nope ENOENT")).
Proof.
  split; [reflexivity|].
  exact (promise_settles_once "nope" []
           (step "nope" [] (spawn (mkOptions None None))
              (ChildError (mkError "spawn nope ENOENT")))
           (rejectedWith (mkError "spawn nope ENOENT"))
           [ChildExit (Some 0%Z) None] eq_refl).
Defined.

(** X16. Only its own trigger or the "exit" of the child takes a hook off the
    host process. As long as the exit of the child was not observed, the
    exit hook is registered unless the host exited, and the interrupt hook
    is registered unless the host was interrupted; an "error" of the child,
    which rejects the promise, removes neither. *)
Theorem hooks_stay_until_child_exit (cmd : string) (arguments : list string)
    (options : SpawnOptions) (evs : list Event) :
  Forall (λ ev, isChildExit ev = false) evs →
  let c := steps cmd arguments (spawn options) evs in
  processExit c = (if existsb isHostExit evs then [] else [killChild])
  ∧ processSIGINT c = (if existsb isHostSIGINT evs then [] else [interruptChild]).
Proof.
  intros Hevs. cbn zeta.
  destruct (hooked_steps cmd arguments evs false false (spawn options)
              (hooked_spawn options) Hevs) as [Hi He _ _ _].
  by split.
Qed.

Lemma hooks_stay_until_child_exit_witness :
  Forall (λ ev, isChildExit ev = false) [ChildError (mkError "spawn nope ENOENT")]
  ∧ processExit (steps "nope" [] (spawn (mkOptions None None))
                   [ChildError (mkError "spawn nope ENOENT")])
    = [killChild].
Proof.
  assert (Forall (λ ev, isChildExit ev = false)
            [ChildError (mkError "spawn nope ENOENT")]) as H
    by (repeat constructor).
  split; [exact H|].
  exact (proj1 (hooks_stay_until_child_exit "nope" [] (mkOptions None None)
                  [ChildError (mkError "spawn nope ENOENT")] H)).
Defined.

End SpawnMore.

(** ** The writable of the tests *)

Module BufferedWriteableSpec.
Import Text TextFacts BufferedWriteable.

(** X17. [drain()] returns the text of everything written since the last
    drain, in the order it was written, and leaves nothing: a drain right
    after it returns the empty string. *)
Theorem drain_returns_what_was_written (buffer : list string)
    (chunks : list Buffer) :
  let drained := (drain buffer).2 in
  let written := foldl writeChunk drained chunks in
  (drain written).1 = join (utf8 <$> chunks)
  ∧ (drain (drain written).2).1 = "".
Proof.
  cbn zeta. split; [|done]. unfold drain. cbn [fst snd].
  assert (∀ b, foldl writeChunk b chunks = b ++ (utf8 <$> chunks)) as ->.
  { induction chunks as [|chunk chunks IH]; intros b.
    - by rewrite List.app_nil_r.
    - cbn [foldl]. rewrite IH. unfold writeChunk. by rewrite <- List.app_assoc. }
  done.
Qed.

End BufferedWriteableSpec.
